(** * standup-helper: the data correlation and structuring engine

    A shallow embedding of [src/services/data_preprocessor.py] and of the
    aggregation entry points of [src/services/data_aggregator.py], with the
    properties of the specification stated and proved over it.

    Text.  A Python [str] is modelled as a list of characters of the ASCII
    range.  The character predicates below ([is_space], [is_word], [upper],
    [lower], the regular-expression classes) are the ASCII restrictions of
    Python's; codes above 127 are treated as caseless symbols that are
    neither word characters nor white space.  The bullet that the document
    structurer prints is carried as the three bytes of its UTF-8 encoding. *)

From Stdlib Require Import Ascii String ZArith Lia DecimalString.
From stdpp Require Import gmap strings list sorting.

Local Open Scope nat_scope.

Abbreviation text := (list ascii).

(** A string literal of the source, as a text. *)
Definition str (s : string) : text := list_ascii_of_string s.

(** ** Characters *)

Definition code (c : ascii) : nat := nat_of_ascii c.

Definition in_range (lo hi x : ascii) : bool :=
  (code lo <=? code x) && (code x <=? code hi).

Definition is_digit (c : ascii) : bool := in_range "0" "9" c.
Definition is_lower_az (c : ascii) : bool := in_range "a" "z" c.
Definition is_upper_az (c : ascii) : bool := in_range "A" "Z" c.
Definition is_alpha (c : ascii) : bool := is_lower_az c || is_upper_az c.

(** [\w] of the [re] module. *)
Definition is_word (c : ascii) : bool :=
  is_alpha c || is_digit c || bool_decide (c = "_"%char).

(** [str.isspace] on one character; also [\s] of the [re] module and the
    characters removed by [str.strip()]: TAB, LF, VT, FF, CR, the four
    separators 0x1c to 0x1f, and the space. *)
Definition is_space (c : ascii) : bool :=
  ((9 <=? code c) && (code c <=? 13)) || ((28 <=? code c) && (code c <=? 32)).

Definition upper_char (c : ascii) : ascii :=
  if is_lower_az c then ascii_of_nat (code c - 32) else c.
Definition lower_char (c : ascii) : ascii :=
  if is_upper_az c then ascii_of_nat (code c + 32) else c.

(** [str.upper], [str.lower] *)
Definition upper (s : text) : text := upper_char <$> s.
Definition lower (s : text) : text := lower_char <$> s.

(** [str.strip()] *)
Fixpoint lstrip (s : text) : text :=
  match s with
  | c :: s' => if is_space c then lstrip s' else s
  | [] => []
  end.
Definition rstrip (s : text) : text := reverse (lstrip (reverse s)).
Definition strip (s : text) : text := rstrip (lstrip s).

(** [str.split('\n')]: never returns the empty list. *)
Definition NL : ascii := "010"%char.

Fixpoint split_lines (s : text) : list text :=
  match s with
  | [] => [[]]
  | c :: s' =>
      if bool_decide (c = NL) then [] :: split_lines s'
      else match split_lines s' with
           | l :: ls => (c :: l) :: ls
           | [] => [[c]]
           end
  end.

(** ['\n'.join(lines)] *)
Fixpoint join_lines (ls : list text) : text :=
  match ls with
  | [] => []
  | [l] => l
  | l :: ls' => l ++ NL :: join_lines ls'
  end.

(** [sub in s] on strings. *)
Fixpoint is_prefix (sub s : text) : bool :=
  match sub, s with
  | [], _ => true
  | _ :: _, [] => false
  | a :: sub', b :: s' => bool_decide (a = b) && is_prefix sub' s'
  end.

Fixpoint contains (sub s : text) : bool :=
  is_prefix sub s ||
  match s with
  | [] => false
  | _ :: s' => contains sub s'
  end.

(** ** Regular expressions: the fragment of [re] the program uses

    A backtracking matcher with the priorities of the [re] module: the
    left alternative first, greedy repetition.  The matcher runs on the
    remaining text together with the character before it, which [\b]
    needs.  [ic] is the [re.IGNORECASE] flag. *)

Inductive regex : Type :=
| Lit (c : ascii)                              (* a literal character *)
| Range (lo hi : ascii)                        (* [lo-hi] *)
| Digit                                        (* \d *)
| Space                                        (* \s *)
| WordB                                        (* \b *)
| Empty
| Cat (r1 r2 : regex)
| Alt (r1 r2 : regex)                          (* r1|r2 *)
| Rep (lo : nat) (hi : option nat) (r : regex) (* r{lo,hi}, r{lo,}, greedy *)
| Grp (r : regex).                             (* (r) and (?:r) *)

Definition Plus (r : regex) : regex := Rep 1 None r.
Definition Star (r : regex) : regex := Rep 0 None r.
Definition Opt (r : regex) : regex := Rep 0 (Some 1) r.

Fixpoint Seq (rs : list regex) : regex :=
  match rs with
  | [] => Empty
  | [r] => r
  | r :: rs' => Cat r (Seq rs')
  end.

(** A literal under the flag: both sides are lower-cased. *)
Definition lit_ok (ic : bool) (c x : ascii) : bool :=
  if ic then bool_decide (lower_char x = lower_char c) else bool_decide (x = c).

(** A range under the flag: the lower-cased character, or its upper case,
    lies in the range. *)
Definition range_ok (ic : bool) (lo hi x : ascii) : bool :=
  if ic then in_range lo hi (lower_char x) || in_range lo hi (upper_char (lower_char x))
  else in_range lo hi x.

Definition is_word_opt (o : option ascii) : bool :=
  match o with Some c => is_word c | None => false end.

(** [\b]: exactly one of the two neighbours is a word character; the
    outside of the text counts as a non-word character. *)
Definition at_boundary (p : option ascii) (s : text) : bool :=
  xorb (is_word_opt p) (is_word_opt (head s)).

Definition below (n : nat) (hi : option nat) : bool :=
  match hi with Some h => n <? h | None => true end.

Section Matcher.
Context (ic : bool) {A : Type}.

Definition kont : Type := option ascii → text → option A.

Definition one (ok : ascii → bool) (s : text) (k : kont) : option A :=
  match s with
  | x :: s' => if ok x then k (Some x) s' else None
  | [] => None
  end.

(** Greedy repetition: one more round of the body first (it must
    consume something), then the rest of the pattern provided at least
    [lo] rounds were made. *)
Fixpoint rep_loop (body : option ascii → text → kont → option A)
    (lo : nat) (hi : option nat) (k : kont)
    (fuel n : nat) (p : option ascii) (s : text) : option A :=
  let stop := if lo <=? n then k p s else None in
  match fuel with
  | 0 => stop
  | S fuel' =>
      if below n hi then
        match body p s (fun p' s' =>
                          if length s' <? length s
                          then rep_loop body lo hi k fuel' (S n) p' s'
                          else None) with
        | Some x => Some x
        | None => stop
        end
      else stop
  end.

Fixpoint mt (r : regex) (p : option ascii) (s : text) (k : kont) : option A :=
  match r with
  | Lit c => one (lit_ok ic c) s k
  | Range lo hi => one (range_ok ic lo hi) s k
  | Digit => one is_digit s k
  | Space => one is_space s k
  | WordB => if at_boundary p s then k p s else None
  | Empty => k p s
  | Cat r1 r2 => mt r1 p s (fun p' s' => mt r2 p' s' k)
  | Alt r1 r2 =>
      match mt r1 p s k with
      | Some x => Some x
      | None => mt r2 p s k
      end
  | Rep lo hi r' => rep_loop (mt r') lo hi k (S (length s)) 0 p s
  | Grp r' => mt r' p s k
  end.
End Matcher.

(** The outcome of a successful search: how many characters were skipped
    before the match, the text from the match start on, and the state
    after the match. *)
Record found : Type := Found {
  f_skipped : nat;
  f_from : text;
  f_prev : option ascii;
  f_rest : text
}.

(** The matched characters, [match.group(0)]. *)
Definition f_group (f : found) : text :=
  take (length (f_from f) - length (f_rest f)) (f_from f).

(** [pattern.search]: the leftmost position at which the matcher succeeds. *)
Fixpoint search_at (ic : bool) (r : regex) (i : nat) (p : option ascii) (s : text)
    : option found :=
  match mt ic r p s (fun p' s' => Some (p', s')) with
  | Some (p', s') => Some (Found i s p' s')
  | None =>
      match s with
      | [] => None
      | x :: s' => search_at ic r (S i) (Some x) s'
      end
  end.

Definition search (ic : bool) (r : regex) (s : text) : option found :=
  search_at ic r 0 None s.

(** [re.findall] for a pattern whose only group spans the whole match:
    the matched texts of the successive non-overlapping matches, left to
    right.  No pattern of the program matches the empty string; after an
    empty match the scan moves on by one character. *)
Fixpoint findall_from (fuel : nat) (ic : bool) (r : regex)
    (p : option ascii) (s : text) : list text :=
  match fuel with
  | 0 => []
  | S fuel' =>
      match search_at ic r 0 p s with
      | None => []
      | Some f =>
          f_group f ::
          (if length (f_rest f) <? length (f_from f)
           then findall_from fuel' ic r (f_prev f) (f_rest f)
           else match f_rest f with
                | [] => []
                | x :: s' => findall_from fuel' ic r (Some x) s'
                end)
      end
  end.

Definition findall (ic : bool) (r : regex) (s : text) : list text :=
  findall_from (S (length s)) ic r None s.

(** [re.sub(pattern, repl, s)] for a constant replacement. *)
Fixpoint sub_from (fuel : nat) (ic : bool) (r : regex) (repl : text)
    (p : option ascii) (s : text) : text :=
  match fuel with
  | 0 => s
  | S fuel' =>
      match search_at ic r 0 p s with
      | None => s
      | Some f =>
          take (f_skipped f) s ++ repl ++
          (if length (f_rest f) <? length (f_from f)
           then sub_from fuel' ic r repl (f_prev f) (f_rest f)
           else match f_rest f with
                | [] => []
                | x :: s' => x :: sub_from fuel' ic r repl (Some x) s'
                end)
      end
  end.

Definition re_sub (ic : bool) (r : regex) (repl : text) (s : text) : text :=
  sub_from (S (length s)) ic r repl None s.

(** ** [DataPreprocessor] *)

(** [TICKET_PATTERNS]:
    [\b([A-Z]{2,}-\d+)\b] and [\b([A-Z]+\d+)\b]. *)
Definition pat_standard : regex :=
  Seq [WordB; Grp (Seq [Rep 2 None (Range "A" "Z"); Lit "-"; Plus Digit]); WordB].
Definition pat_compact : regex :=
  Seq [WordB; Grp (Seq [Plus (Range "A" "Z"); Plus Digit]); WordB].
Definition TICKET_PATTERNS : list regex := [pat_standard; pat_compact].

(** [extract_ticket_ids] *)
Definition extract_ticket_ids (t : text) : gset text :=
  foldl (fun tickets pattern =>
           tickets ∪ list_to_set (upper <$> findall true pattern t))
        ∅ TICKET_PATTERNS.


(** Truthiness of a string, of a list: non-empty. *)
Definition truthy {A} (l : list A) : bool :=
  match l with [] => false | _ :: _ => true end.

(** [text[start:end]] for non-negative indices. *)
Definition slice (start stop : Z) (s : text) : text :=
  take (Z.to_nat (stop - start)) (drop (Z.to_nat start) s).

(** [re.escape(s)] read as a pattern: the characters of [s], each taken
    literally. *)
Definition escape (s : text) : regex := Seq (Lit <$> s).

(** The position after the match, [match.end()]. *)
Definition f_end (whole : text) (f : found) : nat :=
  length whole - length (f_rest f).

Definition ELLIPSIS : text := str "...".

(** [_extract_context] *)
Definition extract_context (t ticket_id : text) (context_size : nat) : text :=
  let pattern := Seq [WordB; escape ticket_id; WordB] in
  match search true pattern t with
  | Some m =>
      let start := Z.max 0 (Z.of_nat (f_skipped m) - Z.of_nat context_size) in
      let stop := Z.min (Z.of_nat (length t))
                        (Z.of_nat (f_end t m) + Z.of_nat context_size) in
      let context := strip (slice start stop t) in
      let context := if (0 <? start)%Z then ELLIPSIS ++ context else context in
      let context := if (stop <? Z.of_nat (length t))%Z
                     then context ++ ELLIPSIS else context in
      context
  | None => []
  end.

(** The body of the loop of [_extract_git_commits_for_ticket]. *)
Definition commit_step (ticket_id : text) (commits : list text) (line : text)
    : list text :=
  if contains (upper ticket_id) (upper line) then
    let commit := strip line in
    if truthy commit && negb (bool_decide (commit ∈ commits))
    then commits ++ [commit] else commits
  else commits.

(** [_extract_git_commits_for_ticket] *)
Definition extract_git_commits_for_ticket (git_log ticket_id : text) : list text :=
  foldl (commit_step ticket_id) [] (split_lines git_log).

(** The first result of [f] over a list, as a loop that returns from
    inside its body. *)
Fixpoint first_some {A B} (f : A → option B) (l : list A) : option B :=
  match l with
  | [] => None
  | x :: l' => match f x with Some y => Some y | None => first_some f l' end
  end.

(** [range(a, b)] *)
Definition range (a b : nat) : list nat := seq a (b - a).

(** [(\d+:\d+:\d+|\d+:\d+)] *)
Definition pat_duration : regex :=
  Grp (Alt (Seq [Plus Digit; Lit ":"; Plus Digit; Lit ":"; Plus Digit])
           (Seq [Plus Digit; Lit ":"; Plus Digit])).

(** [_extract_time_duration] *)
Definition extract_time_duration (timew_data ticket_id : text) : option text :=
  let lines := split_lines timew_data in
  first_some
    (fun i =>
       match lines !! i with
       | Some line =>
           if contains ticket_id line then
             first_some
               (fun j => match lines !! j with
                         | Some l => f_group <$> search false pat_duration l
                         | None => None
                         end)
               (range (Nat.max 0 (i - 1)) (Nat.min (length lines) (i + 2)))
           else None
       | None => None
       end)
    (range 0 (length lines)).

(** One value of the [correlated] dictionary.  The key ['time_duration']
    is absent until it is assigned. *)
Record entry : Type := Entry {
  mentioned_in_notes : bool;
  jira_status : option text;
  jira_summary : option text;
  git_commits : list text;
  time_tracked : bool;
  contexts : list (text * text);
  time_duration : option text
}.

#[global] Instance entry_eq_dec : EqDecision entry.
Proof. solve_decision. Defined.

(** The [defaultdict] factory. *)
Definition default_entry : entry :=
  Entry false None None [] false [] None.

(** A tracker record as the code reads it: [ticket.get('key', '')],
    [ticket.get('fields', {})], [fields.get('status', {}).get('name')]
    and [fields.get('summary')]. *)
Record jira_fields : Type := JiraFields {
  jf_status : option (option text);   (* 'status': a dictionary with an optional 'name' *)
  jf_summary : option text
}.
Record jira_ticket : Type := JiraTicket {
  jt_key : option text;
  jt_fields : option jira_fields
}.

Definition get_key (t : jira_ticket) : text := default [] (jt_key t).
Definition get_status_name (t : jira_ticket) : option text :=
  match jt_fields t with
  | Some f => match jf_status f with Some st => st | None => None end
  | None => None
  end.
Definition get_summary (t : jira_ticket) : option text :=
  match jt_fields t with Some f => jf_summary f | None => None end.

(** [correlated[k]] followed by an update of the entry: the entry is
    created from the factory when the key is new. *)
Definition at_key (k : text) (f : entry → entry) (c : gmap text entry)
    : gmap text entry :=
  <[k := f (default default_entry (c !! k))]> c.

Definition note_step (notes : text) (ticket : text) : entry → entry :=
  fun e =>
    let e := Entry true (jira_status e) (jira_summary e) (git_commits e)
                   (time_tracked e) (contexts e) (time_duration e) in
    let context := extract_context notes ticket 100 in
    if truthy context
    then Entry (mentioned_in_notes e) (jira_status e) (jira_summary e)
               (git_commits e) (time_tracked e)
               (contexts e ++ [(str "notes", context)]) (time_duration e)
    else e.

(** The two assignments made for a tracker record. *)
Definition set_jira (ticket : jira_ticket) : entry → entry :=
  fun e => Entry (mentioned_in_notes e) (get_status_name ticket)
                 (get_summary ticket) (git_commits e) (time_tracked e)
                 (contexts e) (time_duration e).

Definition jira_step (ticket : jira_ticket) (c : gmap text entry)
    : gmap text entry :=
  let ticket_id := get_key ticket in
  if truthy ticket_id then at_key ticket_id (set_jira ticket) c else c.

Definition git_step (git_log : text) (ticket : text) : entry → entry :=
  fun e =>
    let commits := extract_git_commits_for_ticket git_log ticket in
    Entry (mentioned_in_notes e) (jira_status e) (jira_summary e)
          (git_commits e ++ commits) (time_tracked e) (contexts e)
          (time_duration e).

Definition timew_step (timew_data : text) (ticket : text) : entry → entry :=
  fun e =>
    let e := Entry (mentioned_in_notes e) (jira_status e) (jira_summary e)
                   (git_commits e) true (contexts e) (time_duration e) in
    match extract_time_duration timew_data ticket with
    | Some duration =>
        if truthy duration
        then Entry (mentioned_in_notes e) (jira_status e) (jira_summary e)
                   (git_commits e) (time_tracked e) (contexts e) (Some duration)
        else e
    | None => e
    end.

(** A [for ticket in tickets] loop over a set, each round updating the
    entry of its own ticket. *)
Definition for_tickets (tickets : gset text) (step : text → entry → entry)
    (c : gmap text entry) : gmap text entry :=
  set_fold (fun ticket c => at_key ticket (step ticket) c) c tickets.

(** [correlate_ticket_data] *)
Definition correlate_ticket_data (notes : text) (jira_tickets : list jira_ticket)
    (git_commits_text timew_data : text) : gmap text entry :=
  let correlated := ∅ in
  let correlated :=
    for_tickets (extract_ticket_ids notes) (note_step notes) correlated in
  let correlated := foldl (fun c t => jira_step t c) correlated jira_tickets in
  let correlated :=
    for_tickets (extract_ticket_ids git_commits_text) (git_step git_commits_text)
                correlated in
  let correlated :=
    for_tickets (extract_ticket_ids timew_data) (timew_step timew_data)
                correlated in
  correlated.

(** [deduplicate_content] *)
Definition dedup_step (acc : gset text * list text) (line : text)
    : gset text * list text :=
  let normalized := lower (strip line) in
  if truthy normalized && negb (bool_decide (normalized ∈ acc.1))
  then ({[normalized]} ∪ acc.1, acc.2 ++ [line])
  else acc.

Definition deduplicate_content (t : text) : text :=
  let lines := split_lines t in
  let '(seen, unique_lines) := foldl dedup_step (∅, []) lines in
  join_lines unique_lines.

(** [_clean_notes]: the three substitutions, then the non-blank lines,
    stripped.
    [(\d{1,2}:\d{2})\s*(?:am|pm|AM|PM)?\s*-\s*], [\n{3,}] and [ {2,}]. *)
Definition pat_timestamp : regex :=
  Seq [Grp (Seq [Rep 1 (Some 2) Digit; Lit ":"; Rep 2 (Some 2) Digit]);
       Star Space;
       Opt (Grp (Alt (Seq [Lit "a"; Lit "m"])
                (Alt (Seq [Lit "p"; Lit "m"])
                (Alt (Seq [Lit "A"; Lit "M"])
                     (Seq [Lit "P"; Lit "M"])))));
       Star Space; Lit "-"; Star Space].
Definition pat_newlines : regex := Rep 3 None (Lit NL).
Definition pat_spaces : regex := Rep 2 None (Lit " ").

Definition clean_notes (notes : text) : text :=
  let notes := re_sub false pat_timestamp [] notes in
  let notes := re_sub false pat_newlines [NL; NL] notes in
  let notes := re_sub false pat_spaces (str " ") notes in
  let lines := split_lines notes in
  let cleaned_lines :=
    foldl (fun cleaned line =>
             let line := strip line in
             if truthy line then cleaned ++ [line] else cleaned)
          [] lines in
  join_lines cleaned_lines.

(** ** Dates: the part of [datetime] the program uses

    A [datetime] is carried as its calendar date; the time of day plays no
    role in the code modelled here.  The arithmetic is that of
    [datetime.py]. *)

Record datetime : Type := Date { year : Z; month : Z; day : Z }.

#[global] Instance datetime_eq_dec : EqDecision datetime.
Proof. solve_decision. Defined.

Local Open Scope Z_scope.

Definition is_leap (y : Z) : bool :=
  (y mod 4 =? 0) && (negb (y mod 100 =? 0) || (y mod 400 =? 0)).

Definition days_in_month (y m : Z) : Z :=
  if m =? 2 then (if is_leap y then 29 else 28)
  else if (m =? 4) || (m =? 6) || (m =? 9) || (m =? 11) then 30 else 31.

Definition days_before_year (y : Z) : Z :=
  let y := y - 1 in y * 365 + y / 4 - y / 100 + y / 400.

Definition DAYS_BEFORE_MONTH : list Z :=
  [0; 0; 31; 59; 90; 120; 151; 181; 212; 243; 273; 304; 334].

Definition days_before_month (y m : Z) : Z :=
  nth (Z.to_nat m) DAYS_BEFORE_MONTH 0 +
  (if (2 <? m) && is_leap y then 1 else 0).

(** [toordinal] *)
Definition toordinal (d : datetime) : Z :=
  days_before_year (year d) + days_before_month (year d) (month d) + day d.

(** [fromordinal], after [_ord2ymd]. *)
Definition fromordinal (n : Z) : datetime :=
  let n := n - 1 in
  let n400 := n / 146097 in let n := n mod 146097 in
  let y := n400 * 400 + 1 in
  let n100 := n / 36524 in let n := n mod 36524 in
  let n4 := n / 1461 in let n := n mod 1461 in
  let n1 := n / 365 in let n := n mod 365 in
  let y := y + n100 * 100 + n4 * 4 + n1 in
  if (n1 =? 4) || (n100 =? 4) then Date (y - 1) 12 31
  else
    let leapyear := (n1 =? 3) && (negb (n4 =? 24) || (n100 =? 3)) in
    let m := Z.shiftr (n + 50) 5 in
    let preceding :=
      nth (Z.to_nat m) DAYS_BEFORE_MONTH 0 +
      (if (2 <? m) && leapyear then 1 else 0) in
    if n <? preceding then
      let m := m - 1 in
      let preceding := preceding - days_in_month y m in
      Date y m (n - preceding + 1)
    else Date y m (n - preceding + 1).

(** [d - timedelta(days=k)] *)
Definition minus_days (d : datetime) (k : Z) : datetime :=
  fromordinal (toordinal d - k).

(** [weekday()]: Monday is 0. *)
Definition weekday (d : datetime) : Z := (toordinal d + 6) mod 7.

Local Close Scope Z_scope.

(** A non-negative number in decimal, as an f-string prints it. *)
Definition decimal (n : nat) : text :=
  str (DecimalString.NilZero.string_of_uint (Nat.to_uint n)).

(** Decimal, padded with zeros to two digits: [%m] and [%d]. *)
Definition decimal2 (z : Z) : text :=
  let n := Z.to_nat z in
  if n <? 10 then "0"%char :: decimal n else decimal n.

Definition DAY_NAMES : list string :=
  ["Monday"; "Tuesday"; "Wednesday"; "Thursday"; "Friday"; "Saturday"; "Sunday"]%string.
Definition MONTH_NAMES : list string :=
  ["January"; "February"; "March"; "April"; "May"; "June"; "July"; "August";
   "September"; "October"; "November"; "December"]%string.

(** [strftime('%Y-%m-%d')], for the years of four digits. *)
Definition strftime_ymd (d : datetime) : text :=
  decimal (Z.to_nat (year d)) ++ str "-" ++ decimal2 (month d) ++ str "-" ++
  decimal2 (day d).

(** [strftime('%A, %B %d')], in the C locale. *)
Definition strftime_long (d : datetime) : text :=
  str (nth (Z.to_nat (weekday d)) DAY_NAMES ""%string) ++ str ", " ++
  str (nth (Z.to_nat (month d - 1)) MONTH_NAMES ""%string) ++ str " " ++
  decimal2 (day d).

(** ** The document structurer *)

(** String order of Python: by character code, a proper prefix first. *)
Fixpoint text_leb (a b : text) : bool :=
  match a, b with
  | [], _ => true
  | _ :: _, [] => false
  | x :: a', y :: b' =>
      if code x <? code y then true
      else if code y <? code x then false
      else text_leb a' b'
  end.

(** [sorted] on a list of (key, entry) pairs with distinct keys. *)
Definition key_le (x y : text * entry) : Prop := text_leb x.1 y.1 = true.

#[global] Instance key_le_dec : RelDecision key_le.
Proof. intros x y. unfold key_le. apply _. Defined.

Definition sorted_items (l : list (text * entry)) : list (text * entry) :=
  merge_sort key_le l.

(** The test that separates the tickets by activity level. *)
Definition is_active (data : entry) : bool :=
  truthy (git_commits data) || time_tracked data || mentioned_in_notes data.

(** The loop over [correlated_data.items()] that fills [active_tickets]
    and [mentioned_tickets]. *)
Definition partition_step (acc : list (text * entry) * list (text * entry))
    (item : text * entry) : list (text * entry) * list (text * entry) :=
  if is_active item.2 then (acc.1 ++ [item], acc.2) else (acc.1, acc.2 ++ [item]).

Definition partition_tickets (correlated_data : gmap text entry)
    : list (text * entry) * list (text * entry) :=
  foldl partition_step ([], []) (map_to_list correlated_data).

Definition opt_truthy (o : option text) : bool :=
  match o with Some s => truthy s | None => false end.
Definition opt_text (o : option text) : text := default [] o.

Definition BULLET : text := str "•".

(** The lines of one block under [ACTIVELY WORKED ON:]. *)
Definition active_block (item : text * entry) : list text :=
  let '(ticket_id, data) := item in
  [NL :: BULLET ++ str " " ++ ticket_id] ++
  (if opt_truthy (jira_summary data)
   then [str "  Summary: " ++ opt_text (jira_summary data)] else []) ++
  (if opt_truthy (jira_status data)
   then [str "  Status: " ++ opt_text (jira_status data)] else []) ++
  (if opt_truthy (time_duration data)
   then [str "  Time spent: " ++ opt_text (time_duration data)] else []) ++
  (if truthy (git_commits data)
   then [str "  Commits: " ++ decimal (length (git_commits data)) ++ str " commit(s)"]
        ++ ((fun commit => str "    - " ++ take 100 commit) <$> take 2 (git_commits data))
   else []) ++
  (if truthy (contexts data)
   then (fun sc => str "  Context: " ++ take 150 sc.2) <$> take 1 (contexts data)
   else []).

(** The line of one ticket under [ALSO TRACKING:]. *)
Definition mentioned_line (item : text * entry) : text :=
  let '(ticket_id, data) := item in
  let line := BULLET ++ str " " ++ ticket_id in
  let line := if opt_truthy (jira_status data)
              then line ++ str " (" ++ opt_text (jira_status data) ++ str ")"
              else line in
  let line := if opt_truthy (jira_summary data)
              then line ++ str ": " ++ take 50 (opt_text (jira_summary data))
              else line in
  line.

(** [structure_for_ai] *)
Definition structure_for_ai (correlated_data : gmap text entry) (notes : text)
    (date_range : datetime * datetime) : text :=
  let '(start_date, end_date) := date_range in
  let structured :=
    [str "=== TIMEFRAME ===";
     str "Period: " ++ strftime_ymd start_date ++ str " to " ++ strftime_ymd end_date] in
  let structured :=
    if bool_decide (start_date ≠ end_date)
    then structured ++ [str "Yesterday: " ++ strftime_long start_date;
                        str "Today: " ++ strftime_long end_date]
    else structured in
  let structured := structured ++ [[]] in
  let structured :=
    if bool_decide (correlated_data ≠ ∅) then
      let structured := structured ++ [str "=== TICKET WORK ==="] in
      let '(active_tickets, mentioned_tickets) := partition_tickets correlated_data in
      let structured :=
        if truthy active_tickets
        then structured ++ [str "ACTIVELY WORKED ON:"] ++
             concat (active_block <$> sorted_items active_tickets)
        else structured in
      let structured :=
        if truthy mentioned_tickets
        then structured ++ [NL :: str "ALSO TRACKING:"] ++
             (mentioned_line <$> sorted_items mentioned_tickets)
        else structured in
      structured
    else structured in
  let structured := structured ++ [[]] in
  let structured := structured ++ [str "=== WORK NOTES ==="] in
  let cleaned_notes := clean_notes notes in
  let structured := structured ++ [cleaned_notes] in
  join_lines structured.



(** ** [DataAggregator]

    The collaborators are inputs of the model: what the clock, the notes
    files, the two subprocesses and the two clients answer.  A call that
    can raise answers with an [outcome]. *)

Inductive exn_kind : Type :=
| CalledProcessError
| FileNotFoundError
| OtherException.

Record exn : Type := Exn { exn_kind_of : exn_kind; exn_str : text }.

Inductive outcome (A : Type) : Type :=
| Returned (a : A)
| Raised (e : exn).
Arguments Returned {A} a.
Arguments Raised {A} e.

#[global] Instance outcome_ret : MRet outcome := fun _ a => Returned a.
#[global] Instance outcome_bind : MBind outcome := fun _ _ f c =>
  match c with
  | Returned a => f a
  | Raised e => Raised e
  end.

(** [try: c  except kinds: h] *)
Definition try_except {A} (c : outcome A) (caught : exn_kind → bool)
    (h : exn → outcome A) : outcome A :=
  match c with
  | Returned a => Returned a
  | Raised e => if caught (exn_kind_of e) then h e else Raised e
  end.

(** [except Exception] catches every kind. *)
Definition any_exception (k : exn_kind) : bool := true.

Record world : Type := World {
  now : datetime;                           (* datetime.now() *)
  read_text : text → option text;           (* a file's content, if it exists *)
  is_dir : text → bool;                     (* os.path.isdir *)
  run_git : text → text → outcome text;     (* stdout of git log, per directory and author *)
  run_timew : outcome text                  (* stdout of timew summary :yesterday *)
}.

(** The two optional clients of the aggregator.  A GitHub client is
    represented by the text that fetching, filtering and formatting its
    events yields. *)
Record aggregator : Type := Aggregator {
  jira_client : option (outcome (list jira_ticket));   (* get_my_active_tickets *)
  github_client : option (text → option text → outcome text)
}.

(** [JiraClient.format_tickets_for_summary] *)
Definition format_tickets_for_summary (tickets : list jira_ticket) : text :=
  if negb (truthy tickets) then str "No tickets found."
  else
    foldl (fun ticket_info ticket =>
             let key := default (str "Unknown") (jt_key ticket) in
             let summary :=
               match jt_fields ticket with
               | Some f => default (str "No summary available") (jf_summary f)
               | None => str "No summary available"
               end in
             let status :=
               default (str "No status available") (get_status_name ticket) in
             ticket_info ++ str "- " ++ key ++ str " (" ++ status ++ str "): " ++
             summary ++ [NL])
          (str "Take into account these tickets:" ++ [NL]) tickets.

(** [get_date_range] *)
Definition get_date_range (w : world) : datetime * datetime :=
  let today := now w in
  let previous_workday :=
    if (weekday today =? 0)%Z then minus_days today 3 else minus_days today 1 in
  (previous_workday, today).

(** [_get_note_path] *)
Definition get_note_path (base_dir : text) (date : datetime) : text :=
  base_dir ++ str "/" ++ decimal (Z.to_nat (year date)) ++ str "/" ++
  decimal2 (month date) ++ str "/" ++ decimal2 (day date) ++ str ".txt".

(** [get_notes_content] *)
Definition get_notes_content (w : world) (notes_directory : text) : text :=
  let '(previous_workday, today) := get_date_range w in
  let combined_content := [] in
  let combined_content :=
    match read_text w (get_note_path notes_directory today) with
    | Some content =>
        combined_content ++ str "Notes for " ++ strftime_ymd today ++ str ":" ++ [NL]
        ++ content ++ [NL; NL]
    | None => combined_content
    end in
  let combined_content :=
    match read_text w (get_note_path notes_directory previous_workday) with
    | Some content =>
        combined_content ++ str "Notes for " ++ strftime_ymd previous_workday ++
        str ":" ++ [NL] ++ content ++ [NL; NL]
    | None => combined_content
    end in
  combined_content.

Definition NO_GIT_DIRECTORIES : text := str "No Git directories configured.".
Definition NO_TIMEW_SUMMARY : text := str "No timewarrior summary available.".
Definition JIRA_NOT_CONFIGURED : text := str "Jira client not configured.".
Definition JIRA_ERROR : text := str "Error fetching Jira tickets: ".
Definition GITHUB_NOT_CONFIGURED : text := str "GitHub client not configured.".
Definition GITHUB_ERROR : text := str "Error fetching GitHub events: ".

(** [get_git_history]: only [CalledProcessError] is handled. *)
Definition get_git_history (w : world) (author : text) (directories : list text)
    : outcome text :=
  if negb (truthy directories) then Returned NO_GIT_DIRECTORIES
  else
    foldl (fun acc directory =>
             history_info ← acc;
             if negb (is_dir w directory) then Returned history_info
             else
               try_except
                 (stdout ← run_git w directory author;
                  if truthy stdout then
                    Returned
                      (foldl (fun h commit => h ++ str "- " ++ commit ++ [NL])
                             (history_info ++ [NL] ++ str "Folder: " ++ directory ++ [NL])
                             (split_lines (strip stdout)))
                  else Returned history_info)
                 (fun k => match k with CalledProcessError => true | _ => false end)
                 (fun _ => Returned history_info))
          (Returned (str "Include this Git history:" ++ [NL])) directories.

(** [get_timewarrior_summary] *)
Definition get_timewarrior_summary (w : world) : outcome text :=
  try_except
    (stdout ← run_timew w;
     Returned (str "Timewarrior Summary for yesterday:" ++ [NL] ++ strip stdout))
    (fun k => match k with
              | CalledProcessError | FileNotFoundError => true
              | OtherException => false
              end)
    (fun _ => Returned NO_TIMEW_SUMMARY).

(** [get_jira_tickets] *)
Definition get_jira_tickets (a : aggregator) : text :=
  match jira_client a with
  | None => JIRA_NOT_CONFIGURED
  | Some get_my_active_tickets =>
      match get_my_active_tickets with
      | Returned tickets => format_tickets_for_summary tickets
      | Raised e => JIRA_ERROR ++ exn_str e
      end
  end.

(** [get_github_events] *)
Definition get_github_events (a : aggregator) (username : text) (org : option text)
    : text :=
  match github_client a with
  | None => GITHUB_NOT_CONFIGURED
  | Some events =>
      match events username org with
      | Returned t => t
      | Raised e => GITHUB_ERROR ++ exn_str e
      end
  end.

(** [aggregate_all_data] *)
Definition aggregate_all_data (w : world) (a : aggregator)
    (notes_directory git_author : text) (git_directories : list text)
    (github_username github_org : option text) : outcome text :=
  let combined_data := [] in
  let notes := get_notes_content w notes_directory in
  let combined_data := if truthy notes then combined_data ++ notes else combined_data in
  let jira_info := get_jira_tickets a in
  let combined_data := combined_data ++ jira_info ++ [NL] in
  git_history ← get_git_history w git_author git_directories;
  let combined_data := combined_data ++ git_history ++ [NL] in
  timew_summary ← get_timewarrior_summary w;
  let combined_data := combined_data ++ timew_summary ++ [NL] in
  let combined_data :=
    match github_username, github_client a with
    | Some username, Some _ =>
        if truthy username
        then combined_data ++ get_github_events a username github_org ++ [NL]
        else combined_data
    | _, _ => combined_data
    end in
  Returned combined_data.

(** [aggregate_all_data_structured] *)
Definition aggregate_all_data_structured (w : world) (a : aggregator)
    (notes_directory git_author : text) (git_directories : list text)
    : outcome text :=
  let notes := get_notes_content w notes_directory in
  git_history ← get_git_history w git_author git_directories;
  timew_summary ← get_timewarrior_summary w;
  let jira_tickets :=
    match jira_client a with
    | Some (Returned tickets) => tickets
    | Some (Raised _) => []
    | None => []
    end in
  let correlated_data :=
    correlate_ticket_data notes jira_tickets git_history timew_summary in
  let date_range := get_date_range w in
  let structured_data := structure_for_ai correlated_data notes date_range in
  let structured_data :=
    structured_data ++ [NL; NL] ++ str "=== ADDITIONAL DATA ===" ++ [NL] in
  let structured_data :=
    if truthy git_history && negb (contains (str "No Git directories configured") git_history)
    then structured_data ++ [NL] ++ str "GIT ACTIVITY:" ++ [NL] ++
         deduplicate_content git_history
    else structured_data in
  let structured_data :=
    if truthy timew_summary && negb (contains (str "No timewarrior summary") timew_summary)
    then structured_data ++ [NL; NL] ++ str "TIME TRACKING:" ++ [NL] ++ timew_summary
    else structured_data in
  Returned structured_data.

(** ** What a pattern matches, stated without the matcher

    [M ic r a b]: the pattern [r] can take the matcher from state [a] to
    state [b].  A state is the character before the position and the
    text from the position on.  The matcher is shown below to find such a
    [b] whenever one exists, and nothing else. *)

Definition state : Type := option ascii * text.

Definition one_rel (ok : ascii → bool) (a b : state) : Prop :=
  ∃ x, a.2 = x :: b.2 ∧ b.1 = Some x ∧ ok x = true.

Inductive iter (R : state → state → Prop) : nat → state → state → Prop :=
| iter_O a : iter R 0 a a
| iter_S n a b c :
    R a b → length b.2 < length a.2 → iter R n b c → iter R (S n) a c.

Definition le_opt (n : nat) (hi : option nat) : Prop :=
  match hi with Some h => n ≤ h | None => True end.

Fixpoint M (ic : bool) (r : regex) (a b : state) : Prop :=
  match r with
  | Lit c => one_rel (lit_ok ic c) a b
  | Range lo hi => one_rel (range_ok ic lo hi) a b
  | Digit => one_rel is_digit a b
  | Space => one_rel is_space a b
  | WordB => a = b ∧ at_boundary a.1 a.2 = true
  | Empty => a = b
  | Cat r1 r2 => ∃ m, M ic r1 a m ∧ M ic r2 m b
  | Alt r1 r2 => M ic r1 a b ∨ M ic r2 a b
  | Rep lo hi r' => ∃ n, lo ≤ n ∧ le_opt n hi ∧ iter (M ic r') n a b
  | Grp r' => M ic r' a b
  end.

(** The character before the position reached after reading [m] from a
    position whose previous character is [p]. *)
Definition lastp (p : option ascii) (m : text) : option ascii :=
  match last m with Some x => Some x | None => p end.

(** ** Notions used to state the properties *)

Definition all_of (P : ascii → bool) (m : text) : Prop := Forall (λ x, P x = true) m.

(** The texts of the standard format: two letters or more, a hyphen,
    one digit or more. *)
Definition shape_standard (m : text) : Prop :=
  ∃ ls ds, m = ls ++ "-"%char :: ds ∧ all_of is_alpha ls ∧ 2 ≤ length ls ∧
           all_of is_digit ds ∧ 1 ≤ length ds.

(** The texts of the compact format: letters, then digits. *)
Definition shape_compact (m : text) : Prop :=
  ∃ ls ds, m = ls ++ ds ∧ all_of is_alpha ls ∧ 1 ≤ length ls ∧
           all_of is_digit ds ∧ 1 ≤ length ds.

(** [target] occurs in the text as a token, in any letter casing: the
    character before it and the character after it, if any, are not word
    characters. *)
Fixpoint token_scan (target : text) (p : option ascii) (s : text) : bool :=
  (negb (is_word_opt p) && is_prefix (lower target) (lower s) &&
   negb (is_word_opt (head (drop (length target) s))))
  || match s with
     | [] => false
     | x :: s' => token_scan target (Some x) s'
     end.

Definition has_token (target t : text) : bool := token_scan target None t.

(** The comparison key of a line in [deduplicate_content]. *)
Definition line_key (line : text) : text := lower (strip line).

(** The lines that [deduplicate_content] keeps, given the keys seen so
    far: a line is kept when its key is not empty and not seen. *)
Fixpoint kept_lines (seen : gset text) (lines : list text) : list text :=
  match lines with
  | [] => []
  | l :: ls =>
      if truthy (line_key l) && negb (bool_decide (line_key l ∈ seen))
      then l :: kept_lines ({[line_key l]} ∪ seen) ls
      else kept_lines seen ls
  end.

(** The pattern of [_extract_context]. *)
Definition context_pattern (ident : text) : regex := Seq [WordB; escape ident; WordB].

(** The test that [occurrence_from] makes at a position. *)
Definition occurs_here (ident : text) (p : option ascii) (s : text) : bool :=
  at_boundary p s && is_prefix (lower ident) (lower s) &&
  at_boundary (lastp p (take (length ident) s)) (drop (length ident) s).

(** The first position, scanning from the left, at which [ident] occurs
    in the text in any letter casing with a [\b] boundary on both
    sides: the first whole-word occurrence. *)
Fixpoint occurrence_from (ident : text) (i : nat) (p : option ascii) (s : text)
    : option nat :=
  if occurs_here ident p s then Some i
  else match s with
       | [] => None
       | x :: s' => occurrence_from ident (S i) (Some x) s'
       end.



(** The inputs and the document of the end-to-end example. *)
Definition example_notes : text := str "Worked on INFRA-1 today".
Definition example_tracker : list jira_ticket :=
  [JiraTicket (Some (str "INFRA-1"))
     (Some (JiraFields (Some (Some (str "In Progress"))) (Some (str "Fix bug"))))].
Definition example_git : text := str "abc123 2024-01-01 | fix INFRA-1 bug".
Definition example_range : datetime * datetime := (Date 2024 1 1, Date 2024 1 2).

Definition example_document : text :=
  structure_for_ai
    (correlate_ticket_data example_notes example_tracker example_git [])
    example_notes example_range.

Definition example_block : text :=
  [NL] ++ BULLET ++ str " INFRA-1" ++ [NL] ++
  str "  Summary: Fix bug" ++ [NL] ++
  str "  Status: In Progress" ++ [NL] ++
  str "  Commits: 1 commit(s)" ++ [NL] ++
  str "    - abc123 2024-01-01 | fix INFRA-1 bug" ++ [NL] ++
  str "  Context: Worked on INFRA-1 today" ++ [NL].

(** The tracker record that decides the tracker fields of the entry
    of [k]: the last record that carries the key [k], if any; records
    without a key are skipped. *)
Definition tracker_record (k : text) (jira_tickets : list jira_ticket)
    : option jira_ticket :=
  if truthy k then last (filter (λ t, get_key t = k) jira_tickets) else None.

(** The entry of [k] in the result of [correlate_ticket_data], field by
    field. *)
Definition correlated_entry (notes : text) (jira_tickets : list jira_ticket)
    (git_log timew_data : text) (k : text) : entry :=
  Entry (bool_decide (k ∈ extract_ticket_ids notes))
        (tracker_record k jira_tickets ≫= get_status_name)
        (tracker_record k jira_tickets ≫= get_summary)
        (if decide (k ∈ extract_ticket_ids git_log)
         then extract_git_commits_for_ticket git_log k else [])
        (bool_decide (k ∈ extract_ticket_ids timew_data))
        (if decide (k ∈ extract_ticket_ids notes)
         then (if truthy (extract_context notes k 100)
               then [(str "notes", extract_context notes k 100)] else [])
         else [])
        (if decide (k ∈ extract_ticket_ids timew_data)
         then match extract_time_duration timew_data k with
              | Some duration => if truthy duration then Some duration else None
              | None => None
              end
         else None).

(** The characters of a ticket identifier. *)
Definition ticket_char (x : ascii) : bool := is_word x || bool_decide (x = "-"%char).

(** The failures of the two subprocesses that the aggregator handles:
    [get_git_history] handles [CalledProcessError],
    [get_timewarrior_summary] handles [CalledProcessError] and
    [FileNotFoundError]. *)
Definition git_failures_handled (w : world) (author : text) (directories : list text)
    : bool :=
  forallb (λ d, match run_git w d author with
                | Returned _ => true
                | Raised e => match exn_kind_of e with
                              | CalledProcessError => true
                              | _ => false
                              end
                end) directories.



(** A machine on which nothing is available: no notes, no directory, no
    timewarrior, and an aggregator without clients. *)
Definition world_unavailable : world :=
  World (Date 2024 1 2) (λ _, None) (λ _, false)
        (λ _ _, Raised (Exn CalledProcessError []))
        (Raised (Exn FileNotFoundError [])).
Definition aggregator_unconfigured : aggregator := Aggregator None None.

(** ** More notions: what a pattern can read *)

(** The characters that a pattern can consume. *)
Fixpoint chars_of (ic : bool) (r : regex) (x : ascii) : bool :=
  match r with
  | Lit c => lit_ok ic c x
  | Range lo hi => range_ok ic lo hi x
  | Digit => is_digit x
  | Space => is_space x
  | WordB => false
  | Empty => false
  | Cat r1 r2 => chars_of ic r1 x || chars_of ic r2 x
  | Alt r1 r2 => chars_of ic r1 x || chars_of ic r2 x
  | Rep _ _ r' => chars_of ic r' x
  | Grp r' => chars_of ic r' x
  end.

(** The least number of characters that a match of a pattern has. *)
Fixpoint min_len (r : regex) : nat :=
  match r with
  | Lit _ | Range _ _ | Digit | Space => 1
  | WordB | Empty => 0
  | Cat r1 r2 => min_len r1 + min_len r2
  | Alt r1 r2 => Nat.min (min_len r1) (min_len r2)
  | Rep lo _ r' => lo * min_len r'
  | Grp r' => min_len r'
  end.

(** The characters of a duration. *)
Definition is_duration_char (x : ascii) : bool :=
  is_digit x || bool_decide (x = ":"%char).

(** A mention of a ticket in a text: a piece of the text of one of the two
    formats, with no word character just before or just after it. *)
Definition mention (m : text) (t : text) : Prop :=
  ∃ pre post, t = pre ++ m ++ post ∧ (shape_standard m ∨ shape_compact m) ∧
              is_word_opt (last pre) = false ∧ is_word_opt (head post) = false.

(** [re.sub(pattern, repl, s)] for a replacement computed from the match,
    for a pattern whose only group spans the whole match: [repl] receives
    the matched text. *)
Fixpoint sub_fn_from (fuel : nat) (ic : bool) (r : regex) (repl : text → text)
    (p : option ascii) (s : text) : text :=
  match fuel with
  | 0 => s
  | S fuel' =>
      match search_at ic r 0 p s with
      | None => s
      | Some f =>
          take (f_skipped f) s ++ repl (f_group f) ++
          (if length (f_rest f) <? length (f_from f)
           then sub_fn_from fuel' ic r repl (f_prev f) (f_rest f)
           else match f_rest f with
                | [] => []
                | x :: s' => x :: sub_fn_from fuel' ic r repl (Some x) s'
                end)
      end
  end.

Definition re_sub_fn (ic : bool) (r : regex) (repl : text → text) (s : text) : text :=
  sub_fn_from (S (length s)) ic r repl None s.

(** [normalize_ticket_references]: the substitutions are made without
    [re.IGNORECASE]. *)
Definition normalize_ticket_references (t : text) : text :=
  foldl (fun t pattern => re_sub_fn false pattern upper t) t TICKET_PATTERNS.

(** [b] is a run of consecutive elements of [ls]. *)
Definition run_of {A} (b ls : list A) : Prop := ∃ a c, ls = a ++ b ++ c.

(** ** [AIService] and [StandupAutomation]

    The model is a collaborator: [model prompt] stands for
    [self.model.generate_content(prompt).text], which can raise. *)
Module AIService.

(** [AIService.generate_summary] *)
Definition generate_summary (model : text → outcome text) (content instruction : text)
    : outcome (option text) :=
  try_except
    (let full_prompt := instruction ++ [NL; NL] ++ content in
     response_text ← model full_prompt;
     Returned (Some (strip response_text)))
    any_exception
    (fun _ => Returned None).

(** [AIService.generate_standup_summary] *)
Definition generate_standup_summary (model : text → outcome text)
    (content instruction : text) : outcome (option text) :=
  generate_summary model content instruction.

End AIService.

(** The configuration values that [generate_standup_summary] reads. *)
Record config : Type := Config {
  notes_directory : text;
  git_author : text;
  git_directories : list text;
  github_username : option text;
  vertex_instruction : text
}.

Module StandupAutomation.

(** [StandupAutomation.generate_standup_summary] *)
Definition generate_standup_summary (w : world) (a : aggregator) (cfg : config)
    (model : text → outcome text) (use_structured : bool) : outcome (option text) :=
  try_except
    (combined_data ←
       (if use_structured
        then aggregate_all_data_structured w a (notes_directory cfg) (git_author cfg)
               (git_directories cfg)
        else aggregate_all_data w a (notes_directory cfg) (git_author cfg)
               (git_directories cfg) (github_username cfg) None);
     if negb (truthy (strip combined_data)) then Returned None
     else
       summary ← AIService.generate_standup_summary model combined_data
                   (vertex_instruction cfg);
       match summary with
       | Some s => if truthy s then Returned (Some s) else Returned None
       | None => Returned None
       end)
    any_exception
    (fun _ => Returned None).

End StandupAutomation.

(** What one directory contributes to the Git history: nothing when it
    is not a directory, when [git] fails there or when [git] prints
    nothing; otherwise a header and one line per commit. *)
Definition git_section (w : world) (author directory : text) : text :=
  if is_dir w directory then
    match run_git w directory author with
    | Returned stdout =>
        if truthy stdout
        then [NL] ++ str "Folder: " ++ directory ++ [NL] ++
             concat ((λ commit, str "- " ++ commit ++ [NL]) <$> split_lines (strip stdout))
        else []
    | Raised _ => []
    end
  else [].

(** * Properties

    ** The matcher finds what the pattern matches *)

Section MatcherSpec.
Context (ic : bool) {A : Type}.
Implicit Types (k : @kont A) (p : option ascii) (s : text).

Lemma one_sound ok s k x :
  one ok s k = Some x → ∀ p, ∃ p' s', one_rel ok (p, s) (p', s') ∧ k p' s' = Some x.
Proof.
  destruct s as [|c s]; simpl; [done|].
  destruct (ok c) eqn:E; [|done]. intros H p.
  exists (Some c), s. split; [|done]. exists c. done.
Qed.

Lemma one_complete ok s k :
  one ok s k = None → ∀ p p' s', one_rel ok (p, s) (p', s') → k p' s' = None.
Proof.
  intros H p p' s' (x & Hs & Hp & Hok). simpl in *. subst.
  simpl in H. by rewrite Hok in H.
Qed.

Section Loop.
Context (body : option ascii → text → @kont A → option A)
        (R : state → state → Prop).
Hypothesis body_sound : ∀ p s k x,
  body p s k = Some x → ∃ p' s', R (p, s) (p', s') ∧ k p' s' = Some x.
Hypothesis body_complete : ∀ p s k,
  body p s k = None → ∀ p' s', R (p, s) (p', s') → k p' s' = None.

Lemma rep_loop_sound lo hi k fuel : ∀ n p s x,
  le_opt n hi →
  rep_loop body lo hi k fuel n p s = Some x →
  ∃ m p' s', iter R m (p, s) (p', s') ∧ lo ≤ n + m ∧ le_opt (n + m) hi ∧
             k p' s' = Some x.
Proof.
  induction fuel as [|fuel IH]; intros n p s x Hn; simpl.
  - destruct (Nat.leb_spec lo n); [|done]. intros Hk.
    exists 0, p, s. rewrite Nat.add_0_r. split_and!; try done. constructor.
  - assert (Hstop : (if lo <=? n then k p s else None) = Some x →
            ∃ m p' s', iter R m (p, s) (p', s') ∧ lo ≤ n + m ∧
                       le_opt (n + m) hi ∧ k p' s' = Some x).
    { destruct (Nat.leb_spec lo n); [|done]. intros Hk.
      exists 0, p, s. rewrite Nat.add_0_r. split_and!; try done. constructor. }
    destruct (below n hi) eqn:Hb; [|done].
    destruct (body p s _) as [y|] eqn:Hbody; [|done].
    intros [= ->]. apply body_sound in Hbody as (p1 & s1 & HR & Hk).
    destruct (Nat.ltb_spec (length s1) (length s)); [|done].
    apply IH in Hk as (m & p' & s' & Hit & Hlo & Hhi & Hk).
    + exists (S m), p', s'. split_and!; try done.
      * econstructor; eauto.
      * lia.
      * by replace (n + S m) with (S n + m) by lia.
    + destruct hi as [h|]; simpl in *; [|done].
      apply Nat.ltb_lt in Hb. lia.
Qed.

Lemma rep_loop_complete lo hi k fuel : ∀ n p s,
  length s < fuel →
  rep_loop body lo hi k fuel n p s = None →
  ∀ m p' s', iter R m (p, s) (p', s') → lo ≤ n + m → le_opt (n + m) hi →
             k p' s' = None.
Proof.
  induction fuel as [|fuel IH]; intros n p s Hf; [lia|]. simpl.
  intros H m p' s' Hit Hlo Hhi.
  assert (Hstop : (if lo <=? n then k p s else None) = None → m = 0 → k p' s' = None).
  { intros Hs ->. inversion Hit; subst. rewrite Nat.add_0_r in Hlo.
    destruct (Nat.leb_spec lo n); [done|lia]. }
  destruct m as [|m].
  { apply Hstop; [|done]. destruct (below n hi); [|done].
    destruct (body p s _); done. }
  assert (Hb : below n hi = true).
  { destruct hi as [h|]; simpl in *; [|done]. apply Nat.ltb_lt. lia. }
  rewrite Hb in H. destruct (body p s _) as [y|] eqn:Hbody; [done|].
  inversion Hit as [|? ? [p1 s1] ? HR Hlt Hit']; subst. simpl in Hlt.
  eapply body_complete in Hbody; [|exact HR]. simpl in Hbody.
  destruct (Nat.ltb_spec (length s1) (length s)); [|lia].
  eapply (IH (S n)); eauto; [lia|lia|].
  by replace (S n + m) with (n + S m) by lia.
Qed.
End Loop.
End MatcherSpec.

Lemma mt_sound ic r : ∀ {A} p s (k : @kont A) x,
  mt ic r p s k = Some x → ∃ p' s', M ic r (p, s) (p', s') ∧ k p' s' = Some x.
Proof.
  induction r as [c|lo hi| | | | |r1 IH1 r2 IH2|r1 IH1 r2 IH2|lo hi r IH|r IH];
    intros A p s k x; cbn [mt].
  - intros H. by apply one_sound.
  - intros H. by apply one_sound.
  - intros H. by apply one_sound.
  - intros H. by apply one_sound.
  - destruct (at_boundary p s) eqn:E; [|done]. intros H. by exists p, s.
  - intros H. by exists p, s.
  - intros H. apply IH1 in H as (p1 & s1 & H1 & H).
    apply IH2 in H as (p2 & s2 & H2 & H). exists p2, s2. split; [|done].
    by exists (p1, s1).
  - destruct (mt ic r1 p s k) as [y|] eqn:E.
    + intros [= ->]. apply IH1 in E as (p1 & s1 & H1 & H). exists p1, s1.
      split; [by left|done].
    + intros H. apply IH2 in H as (p1 & s1 & H1 & H). exists p1, s1.
      split; [by right|done].
  - intros H.
    assert (Hhi0 : le_opt 0 hi) by (destruct hi; simpl; [lia|done]).
    destruct (rep_loop_sound (mt ic r) (M ic r) (IH A) _ _ _ _ _ _ _ _ Hhi0 H)
      as (m & p' & s' & Hit & Hlo & Hhi & Hk).
    exists p', s'. split; [|done]. exists m. done.
  - apply IH.
Qed.

Lemma mt_complete ic r : ∀ {A} p s (k : @kont A),
  mt ic r p s k = None → ∀ p' s', M ic r (p, s) (p', s') → k p' s' = None.
Proof.
  induction r as [c|lo hi| | | | |r1 IH1 r2 IH2|r1 IH1 r2 IH2|lo hi r IH|r IH];
    intros A p s k; cbn [mt M].
  - intros H. by eapply one_complete.
  - intros H. by eapply one_complete.
  - intros H. by eapply one_complete.
  - intros H. by eapply one_complete.
  - intros H p' s' [[= <- <-] Hb]. simpl in Hb. by rewrite Hb in H.
  - by intros H p' s' [= <- <-].
  - intros H p' s' ([p1 s1] & H1 & H2).
    eapply IH1 in H; [|exact H1]. simpl in H. eapply IH2 in H; eauto.
  - destruct (mt ic r1 p s k) as [y|] eqn:E; [done|].
    intros H p' s' [H1|H2]; [eapply IH1 | eapply IH2]; eauto.
  - intros H p' s' (n & Hlo & Hhi & Hit).
    eapply (rep_loop_complete (mt ic r) (M ic r) (IH A)); eauto.
  - apply IH.
Qed.

Lemma lastp_nil p : lastp p [] = p.
Proof. done. Qed.

Lemma lastp_app p m1 m2 : lastp p (m1 ++ m2) = lastp (lastp p m1) m2.
Proof. unfold lastp. rewrite last_app. by destruct (last m2). Qed.

Lemma lastp_last pre m : lastp (last pre) m = last (pre ++ m).
Proof. unfold lastp. rewrite last_app. by destruct (last m). Qed.

Lemma lastp_cons p x m : lastp p (x :: m) = lastp (Some x) m.
Proof. change (x :: m) with ([x] ++ m). by rewrite lastp_app. Qed.

Lemma one_rel_split ok p s p' s' :
  one_rel ok (p, s) (p', s') ↔ ∃ x, s = x :: s' ∧ p' = Some x ∧ ok x = true.
Proof. done. Qed.

Lemma iter_split (R : state → state → Prop) :
  (∀ p s p' s', R (p, s) (p', s') → ∃ m, s = m ++ s' ∧ p' = lastp p m) →
  ∀ n a b, iter R n a b → ∃ m, a.2 = m ++ b.2 ∧ b.1 = lastp a.1 m.
Proof.
  intros HR n a b Hit. induction Hit as [a|n [p s] [p1 s1] [p2 s2] H1 Hlt Hit IH].
  - by exists [].
  - apply HR in H1 as (m1 & -> & ->). destruct IH as (m2 & IH1 & IH2).
    simpl in *. subst. exists (m1 ++ m2). by rewrite lastp_app, app_assoc.
Qed.

Lemma M_split ic r : ∀ p s p' s',
  M ic r (p, s) (p', s') → ∃ m, s = m ++ s' ∧ p' = lastp p m.
Proof.
  induction r as [c|lo hi| | | | |r1 IH1 r2 IH2|r1 IH1 r2 IH2|lo hi r IH|r IH];
    intros p s p' s'; cbn [M].
  1-4: by intros (x & Hs & Hp & _); simpl in *; subst; exists [x].
  - intros [[= <- <-] _]. by exists [].
  - intros [= <- <-]. by exists [].
  - intros ([p1 s1] & H1 & H2). apply IH1 in H1 as (m1 & -> & ->).
    apply IH2 in H2 as (m2 & -> & ->). exists (m1 ++ m2).
    by rewrite lastp_app, app_assoc.
  - intros [H|H]; eauto.
  - intros (n & _ & _ & Hit). by apply (iter_split _ IH) in Hit.
  - apply IH.
Qed.

Lemma search_at_some ic r : ∀ s i pre0 f,
  search_at ic r i (last pre0) s = Some f →
  ∃ pre, s = pre ++ f_from f ∧ f_skipped f = i + length pre ∧
    mt ic r (last (pre0 ++ pre)) (f_from f) (λ p' s', Some (p', s'))
      = Some (f_prev f, f_rest f) ∧
    (∀ pre1 s1, s = pre1 ++ s1 → length pre1 < length pre →
       ∀ b, ¬ M ic r (last (pre0 ++ pre1), s1) b).
Proof.
  induction s as [|x s IH]; intros i pre0 f; simpl.
  - destruct (mt ic r _ _ _) as [[p' s']|] eqn:E; [|done]. intros [= <-]. simpl.
    exists []. rewrite !app_nil_r, Nat.add_0_r. split_and!; try done.
    intros ? ? ? ?. simpl in *. lia.
  - destruct (mt ic r _ _ _) as [[p' s']|] eqn:E.
    + intros [= <-]. simpl.
      exists []. rewrite !app_nil_r, Nat.add_0_r. split_and!; try done.
      intros ? ? ? ?. simpl in *. lia.
    + intros H. replace (Some x) with (last (pre0 ++ [x])) in H by apply last_snoc.
      apply IH in H as (pre & Hs & Hsk & Hm & Hmin).
      exists (x :: pre). rewrite <- app_assoc in Hm. simpl in Hm. simpl.
      split_and!; try done; [by rewrite Hs|lia|].
      intros pre1 s1 Hs1 Hlen [pb sb] HM.
      destruct pre1 as [|y pre1]; simpl in *.
      * subst s1. rewrite app_nil_r in HM.
        by eapply mt_complete in E; [|exact HM].
      * injection Hs1 as -> Hs1. eapply (Hmin pre1 s1); [done|lia|].
        rewrite <- app_assoc. exact HM.
Qed.

Lemma search_at_none ic r : ∀ s i pre0,
  search_at ic r i (last pre0) s = None →
  ∀ pre1 s1, s = pre1 ++ s1 → ∀ b, ¬ M ic r (last (pre0 ++ pre1), s1) b.
Proof.
  induction s as [|x s IH]; intros i pre0; simpl.
  - destruct (mt ic r _ _ _) as [[p' s']|] eqn:E; [done|]. intros _.
    intros pre1 s1 Hs [pb sb] HM. symmetry in Hs. apply app_eq_nil in Hs as [-> ->].
    rewrite app_nil_r in HM. by eapply mt_complete in E; [|exact HM].
  - destruct (mt ic r _ _ _) as [[p' s']|] eqn:E; [done|].
    intros H. replace (Some x) with (last (pre0 ++ [x])) in H by apply last_snoc.
    intros pre1 s1 Hs1 [pb sb] HM.
    destruct pre1 as [|y pre1]; simpl in *.
    * subst s1. rewrite app_nil_r in HM.
      by eapply mt_complete in E; [|exact HM].
    * injection Hs1 as -> Hs1. eapply (IH _ _ H pre1 s1); [done|].
      rewrite <- app_assoc. exact HM.
Qed.

Lemma take_app_length_sub (mm rest : text) :
  take (length (mm ++ rest) - length rest) (mm ++ rest) = mm.
Proof.
  rewrite length_app. replace (length mm + length rest - length rest) with (length mm) by lia.
  by rewrite take_app_length.
Qed.

(** A successful search, unpacked. *)
Lemma search_found ic r s pre0 i f :
  search_at ic r i (last pre0) s = Some f →
  ∃ pre mm,
    s = pre ++ mm ++ f_rest f ∧ f_from f = mm ++ f_rest f ∧ f_group f = mm ∧
    f_skipped f = i + length pre ∧ f_prev f = last (pre0 ++ pre ++ mm) ∧
    M ic r (last (pre0 ++ pre), mm ++ f_rest f) (f_prev f, f_rest f) ∧
    (∀ pre1 s1, s = pre1 ++ s1 → length pre1 < length pre →
       ∀ b, ¬ M ic r (last (pre0 ++ pre1), s1) b).
Proof.
  intros H. apply search_at_some in H as (pre & Hs & Hsk & Hm & Hmin).
  apply mt_sound in Hm as (p' & s' & HM & [= -> ->]).
  destruct (M_split _ _ _ _ _ _ HM) as (mm & Hfrom & Hprev).
  assert (Hg : f_group f = mm).
  { unfold f_group. rewrite Hfrom. apply take_app_length_sub. }
  exists pre, mm. rewrite <- Hfrom. split_and!; try done.
  - by rewrite Hprev, lastp_last, app_assoc.
Qed.

Lemma findall_from_sound ic r fuel : ∀ pre0 s m,
  m ∈ findall_from fuel ic r (last pre0) s →
  ∃ pre post p', s = pre ++ m ++ post ∧
                 M ic r (last (pre0 ++ pre), m ++ post) (p', post).
Proof.
  induction fuel as [|fuel IH]; intros pre0 s m; simpl; [by intros ?%elem_of_nil|].
  destruct (search_at ic r 0 _ s) as [f|] eqn:E; [|by intros ?%elem_of_nil].
  apply search_found in E as (pre & mm & Hs & Hfrom & Hg & _ & Hprev & HM & _).
  rewrite Hg. intros [->|Hin]%elem_of_cons.
  { exists pre, (f_rest f), (f_prev f). done. }
  destruct (Nat.ltb_spec (length (f_rest f)) (length (f_from f))).
  - rewrite Hprev in Hin. apply IH in Hin as (pre' & post & p' & Hr & HM').
    exists (pre ++ mm ++ pre'), post, p'. split.
    + rewrite Hs, Hr. by rewrite <- !app_assoc.
    + by rewrite <- !app_assoc in HM'.
  - destruct (f_rest f) as [|x s'] eqn:Er; [by apply elem_of_nil in Hin|].
    replace (Some x) with (last ((pre0 ++ pre ++ mm) ++ [x])) in Hin by apply last_snoc.
    apply IH in Hin as (pre' & post & p' & Hr & HM').
    exists (pre ++ mm ++ [x] ++ pre'), post, p'. split.
    + rewrite Hs, Hr. by rewrite <- !app_assoc.
    + by rewrite <- !app_assoc in HM'.
Qed.

Lemma findall_sound ic r s m :
  m ∈ findall ic r s →
  ∃ pre post p', s = pre ++ m ++ post ∧ M ic r (last pre, m ++ post) (p', post).
Proof. intros H. by apply (findall_from_sound ic r _ []) in H. Qed.

Lemma findall_from_nil ic r fuel pre0 s :
  (∀ pre1 s1, s = pre1 ++ s1 → ∀ b, ¬ M ic r (last (pre0 ++ pre1), s1) b) →
  findall_from fuel ic r (last pre0) s = [].
Proof.
  intros Hno. destruct fuel as [|fuel]; simpl; [done|].
  destruct (search_at ic r 0 _ s) as [f|] eqn:E; [|done].
  apply search_found in E as (pre & mm & Hs & _ & _ & _ & _ & HM & _).
  by apply (Hno pre (mm ++ f_rest f)) in HM.
Qed.

(** A match that is the only one at its position, and that no earlier
    match runs into, is reported by [findall]. *)
Lemma findall_from_token ic r tok post fuel : ∀ pre0 s0,
  length (s0 ++ tok ++ post) < fuel →
  tok ≠ [] →
  (∃ p', M ic r (last (pre0 ++ s0), tok ++ post) (p', post)) →
  (∀ b, M ic r (last (pre0 ++ s0), tok ++ post) b → b.2 = post) →
  (∀ s1 s2 b, s0 = s1 ++ s2 → s2 ≠ [] →
     M ic r (last (pre0 ++ s1), s2 ++ tok ++ post) b →
     length (tok ++ post) ≤ length b.2) →
  tok ∈ findall_from fuel ic r (last pre0) (s0 ++ tok ++ post).
Proof.
  induction fuel as [|fuel IH]; intros pre0 s0 Hfuel Htok (p' & Hex) Huniq Hcross; [lia|].
  simpl. destruct (search_at ic r 0 _ _) as [f|] eqn:E.
  2:{ eapply search_at_none in E; [by apply E in Hex|done]. }
  apply search_found in E as (pre & mm & Hs & Hfrom & Hg & _ & Hprev & HM & Hmin).
  destruct (Nat.lt_total (length pre) (length s0)) as [Hlt|[Heq|Hgt]].
  - (* the match starts before the token *)
    assert (∃ s2, s0 = pre ++ s2 ∧ s2 ≠ [] ∧ mm ++ f_rest f = s2 ++ tok ++ post)
      as (s2 & -> & Hs2 & Hs').
    { exists (drop (length pre) s0).
      assert (pre = take (length pre) s0) as Hp.
      { apply (f_equal (take (length pre))) in Hs.
        rewrite take_app_length in Hs. rewrite take_app_le in Hs by lia. done. }
      split_and!.
      - rewrite Hp at 1. by rewrite take_drop.
      - intros Hd%(f_equal length). rewrite length_drop in Hd. simpl in Hd. lia.
      - apply (f_equal (drop (length pre))) in Hs.
        rewrite drop_app_length in Hs. rewrite drop_app_le in Hs by lia. done. }
    rewrite Hs' in HM. pose proof (Hcross pre s2 _ eq_refl Hs2 HM) as Hlen.
    simpl in Hlen.
    assert (∃ s3, s2 = mm ++ s3 ∧ f_rest f = s3 ++ tok ++ post) as (s3 & -> & Hr).
    { assert (length mm ≤ length s2).
      { apply (f_equal length) in Hs'. rewrite !length_app in *. lia. }
      exists (drop (length mm) s2). split.
      - apply (f_equal (take (length mm))) in Hs'.
        rewrite take_app_length in Hs'. rewrite take_app_le in Hs' by done.
        rewrite Hs' at 1. by rewrite take_drop.
      - apply (f_equal (drop (length mm))) in Hs'.
        rewrite drop_app_length in Hs'. rewrite drop_app_le in Hs' by done. done. }
    rewrite Hg. apply elem_of_cons. right.
    rewrite !length_app in Hfuel.
    destruct (Nat.ltb_spec (length (f_rest f)) (length (f_from f))).
    + rewrite Hfrom, length_app in H. rewrite Hprev, Hr. apply IH.
      * rewrite !length_app. lia.
      * done.
      * exists p'. by rewrite <- !app_assoc in *.
      * intros b. rewrite <- !app_assoc in *. apply Huniq.
      * intros s1 s4 b -> Hs4 Hb. apply (Hcross (pre ++ mm ++ s1) s4); [|done|].
        -- by rewrite <- !app_assoc.
        -- by rewrite <- !app_assoc in *.
    + assert (mm = []) as ->.
      { rewrite Hfrom, length_app in H. destruct mm; [done|simpl in H; lia]. }
      simpl in *. rewrite Hr. rewrite app_nil_r in *.
      destruct s3 as [|x s3]; [done|]. simpl.
      replace (Some x) with (last ((pre0 ++ pre) ++ [x])) by apply last_snoc.
      apply IH.
      * rewrite !length_app. simpl in *. lia.
      * done.
      * exists p'. rewrite <- !app_assoc in *. exact Hex.
      * intros b. rewrite <- !app_assoc in *. apply Huniq.
      * intros s1 s4 b -> Hs4 Hb.
        apply (Hcross (pre ++ [x] ++ s1) s4); [by rewrite <- !app_assoc|done|].
        rewrite <- !app_assoc in Hb. exact Hb.
  - (* the match starts at the token *)
    assert (pre = s0) as ->.
    { apply (f_equal (take (length pre))) in Hs.
      rewrite take_app_length in Hs. rewrite Heq, take_app_length in Hs. done. }
    apply app_inv_head in Hs. rewrite <- Hs in HM. apply Huniq in HM. simpl in HM.
    rewrite HM in Hs. apply app_inv_tail in Hs. rewrite Hg, <- Hs.
    apply elem_of_cons. by left.
  - (* a match at the token rules out a later first match *)
    exfalso. eapply (Hmin s0 (tok ++ post)); [done|done|exact Hex].
Qed.

Lemma findall_token ic r pre tok post :
  tok ≠ [] →
  (∃ p', M ic r (last pre, tok ++ post) (p', post)) →
  (∀ b, M ic r (last pre, tok ++ post) b → b.2 = post) →
  (∀ s1 s2 b, pre = s1 ++ s2 → s2 ≠ [] →
     M ic r (last s1, s2 ++ tok ++ post) b → length (tok ++ post) ≤ length b.2) →
  tok ∈ findall ic r (pre ++ tok ++ post).
Proof.
  intros Htok Hex Huniq Hcross. unfold findall.
  apply (findall_from_token ic r tok post _ [] pre); simpl; try done. lia.
Qed.

(** ** Characters *)

Ltac by_cases_on_char c :=
  destruct c as [[] [] [] [] [] [] [] []]; vm_compute; try reflexivity; try discriminate;
  try (intros; discriminate); try (intros; reflexivity); auto.

Lemma range_AZ_alpha x : range_ok true "A" "Z" x = is_alpha x.
Proof. by_cases_on_char x. Qed.

Lemma alpha_word x : is_alpha x = true → is_word x = true.
Proof. by_cases_on_char x. Qed.

Lemma digit_word x : is_digit x = true → is_word x = true.
Proof. by_cases_on_char x. Qed.

Lemma alpha_not_digit x : is_alpha x = true → is_digit x = false.
Proof. by_cases_on_char x. Qed.

Lemma upper_char_idemp x : upper_char (upper_char x) = upper_char x.
Proof. by_cases_on_char x. Qed.

Lemma upper_lower_char x : upper_char (lower_char x) = upper_char x.
Proof. by_cases_on_char x. Qed.

Lemma lower_char_idemp x : lower_char (lower_char x) = lower_char x.
Proof. by_cases_on_char x. Qed.

Lemma lower_alpha x : is_alpha (lower_char x) = is_alpha x.
Proof. by_cases_on_char x. Qed.

Lemma lower_digit x : is_digit (lower_char x) = is_digit x.
Proof. by_cases_on_char x. Qed.

Lemma lower_word x : is_word (lower_char x) = is_word x.
Proof. by_cases_on_char x. Qed.

Lemma lower_space x : is_space (lower_char x) = is_space x.
Proof. by_cases_on_char x. Qed.

Lemma upper_word x : is_word (upper_char x) = is_word x.
Proof. by_cases_on_char x. Qed.

Lemma word_not_space x : is_word x = true → is_space x = false.
Proof. by_cases_on_char x. Qed.

Lemma word_not_NL x : is_word x = true → x ≠ NL.
Proof. intros H ->. by vm_compute in H. Qed.

Lemma lit_ok_true_word c x : lit_ok true c x = true → is_word x = is_word c.
Proof.
  unfold lit_ok. intros H%bool_decide_eq_true.
  by rewrite <- (lower_word x), H, lower_word.
Qed.

Lemma upper_idemp s : upper (upper s) = upper s.
Proof.
  unfold upper. rewrite <- list_fmap_compose. apply list_fmap_ext.
  intros ? x _. apply upper_char_idemp.
Qed.

Lemma upper_lower s : upper (lower s) = upper s.
Proof.
  unfold upper, lower. rewrite <- list_fmap_compose. apply list_fmap_ext.
  intros ? x _. apply upper_lower_char.
Qed.

Lemma same_ci_upper a b : lower a = lower b → upper a = upper b.
Proof. intros H. by rewrite <- (upper_lower a), H, upper_lower. Qed.

(** ** Runs of one class *)

Lemma iter_one ok n p s p' s' :
  iter (one_rel ok) n (p, s) (p', s') ↔
  ∃ m, length m = n ∧ s = m ++ s' ∧ Forall (λ x, ok x = true) m ∧ p' = lastp p m.
Proof.
  split.
  - revert p s. induction n as [|n IH]; intros p s H.
    + inversion H; subst. by exists [].
    + inversion H as [|? ? [p1 s1] ? (x & Hs & Hp & Hok) Hlt Hit]; subst.
      simpl in *. subst. destruct (IH _ _ Hit) as (m & Hl & -> & HF & ->).
      exists (x :: m). rewrite lastp_cons. simpl. split_and!; auto.
  - intros (m & <- & -> & HF & ->). revert p. induction m as [|x m IH]; intros p.
    + constructor.
    + apply Forall_cons in HF as [Hx HF]. rewrite lastp_cons.
      apply (iter_S _ _ _ (Some x, m ++ s')).
      * by exists x.
      * simpl. lia.
      * by apply IH.
Qed.

(** A run of [P] followed by a character outside [P] is determined. *)
Lemma span_unique (P : ascii → bool) (l1 l2 r1 r2 : text) :
  l1 ++ r1 = l2 ++ r2 →
  Forall (λ x, P x = true) l1 → Forall (λ x, P x = true) l2 →
  (∀ x, head r1 = Some x → P x = false) →
  (∀ x, head r2 = Some x → P x = false) →
  l1 = l2 ∧ r1 = r2.
Proof.
  revert l2. induction l1 as [|a l1 IH]; intros [|b l2] E H1 H2 Hr1 Hr2; simpl in *.
  - done.
  - subst r1. apply Forall_cons in H2 as [Hb _]. rewrite (Hr1 b) in Hb; done.
  - subst r2. apply Forall_cons in H1 as [Ha _]. rewrite (Hr2 a) in Ha; done.
  - injection E as -> E. apply Forall_cons in H1 as [_ H1].
    apply Forall_cons in H2 as [_ H2].
    destruct (IH l2 E H1 H2 Hr1 Hr2) as [-> ->]. done.
Qed.

Lemma lit_hyphen x : lit_ok true "-" x = true ↔ x = "-"%char.
Proof. split; [by_cases_on_char x|by intros ->]. Qed.

Lemma all_of_ext (P Q : ascii → bool) m :
  (∀ x, P x = Q x) → all_of P m ↔ all_of Q m.
Proof. intros HPQ. unfold all_of. apply Forall_proper; [|done]. intros x. by rewrite HPQ. Qed.

Lemma pat_standard_M p s p' s' :
  M true pat_standard (p, s) (p', s') ↔
  ∃ m, s = m ++ s' ∧ p' = lastp p m ∧ shape_standard m ∧
       at_boundary p s = true ∧ at_boundary p' s' = true.
Proof.
  unfold pat_standard, Plus. cbn [Seq M]. split.
  - intros ([p1 s1] & [[= <- <-] Hb1] & [p2 s2] & HH & [[= -> ->] Hb2]).
    destruct HH as ([p3 s3] & (n1 & Hn1 & _ & H1) & [p4 s4] & (x & Hx & Hp4 & Hok) &
                   (n2 & Hn2 & _ & H2)).
    apply iter_one in H1 as (ls & Hl1 & -> & Hls & ->).
    apply iter_one in H2 as (ds & Hl2 & -> & Hds & ->).
    simpl in *. subst. apply lit_hyphen in Hok as ->.
    exists (ls ++ "-"%char :: ds). rewrite <- app_assoc. simpl. split_and!; try done.
    + by rewrite lastp_app, lastp_cons.
    + exists ls, ds. split_and!; try done.
      eapply all_of_ext; [|exact Hls]. intros x. by rewrite range_AZ_alpha.
  - intros (m & -> & -> & (ls & ds & -> & Hls & Hn1 & Hds & Hn2) & Hb1 & Hb2).
    exists (p, (ls ++ "-"%char :: ds) ++ s'). split; [done|].
    exists (lastp p (ls ++ "-"%char :: ds), s'). split; [|done].
    exists (lastp p ls, "-"%char :: ds ++ s'). split.
    { exists (length ls). split_and!; try done. apply iter_one. exists ls.
      rewrite <- app_assoc. split_and!; try done.
      eapply all_of_ext; [|exact Hls]. intros x. by rewrite range_AZ_alpha. }
    exists (Some "-"%char, ds ++ s'). split; [by exists "-"%char|].
    exists (length ds). split_and!; try done. apply iter_one. exists ds.
    split_and!; try done. by rewrite lastp_app, lastp_cons.
Qed.

Lemma pat_compact_M p s p' s' :
  M true pat_compact (p, s) (p', s') ↔
  ∃ m, s = m ++ s' ∧ p' = lastp p m ∧ shape_compact m ∧
       at_boundary p s = true ∧ at_boundary p' s' = true.
Proof.
  unfold pat_compact, Plus. cbn [Seq M]. split.
  - intros ([p1 s1] & [[= <- <-] Hb1] & [p2 s2] & HH & [[= -> ->] Hb2]).
    destruct HH as ([p3 s3] & (n1 & Hn1 & _ & H1) & (n2 & Hn2 & _ & H2)).
    apply iter_one in H1 as (ls & Hl1 & -> & Hls & ->).
    apply iter_one in H2 as (ds & Hl2 & -> & Hds & ->).
    simpl in *. subst.
    exists (ls ++ ds). rewrite <- app_assoc. split_and!; try done.
    + by rewrite lastp_app.
    + exists ls, ds. split_and!; try done.
      eapply all_of_ext; [|exact Hls]. intros x. by rewrite range_AZ_alpha.
  - intros (m & -> & -> & (ls & ds & -> & Hls & Hn1 & Hds & Hn2) & Hb1 & Hb2).
    exists (p, (ls ++ ds) ++ s'). split; [done|].
    exists (lastp p (ls ++ ds), s'). split; [|done].
    exists (lastp p ls, ds ++ s'). split.
    { exists (length ls). split_and!; try done. apply iter_one. exists ls.
      rewrite <- app_assoc. split_and!; try done.
      eapply all_of_ext; [|exact Hls]. intros x. by rewrite range_AZ_alpha. }
    exists (length ds). split_and!; try done. apply iter_one. exists ds.
    split_and!; try done. by rewrite lastp_app.
Qed.

Lemma all_of_elem P m x : all_of P m → x ∈ m → P x = true.
Proof. intros H Hx. by apply (proj1 (Forall_forall _ _) H). Qed.

(** Inside a ticket, a non-word character is never followed by a letter. *)
Lemma shape_standard_inner m u c a v :
  shape_standard m → m = u ++ c :: a :: v → is_word c = false → is_alpha a = false.
Proof.
  intros (ls & ds & -> & Hls & _ & Hds & _) E Hc.
  apply app_eq_inv in E as [(k & -> & E)|(k & -> & E)].
  - destruct k as [|c' k]; simpl in E.
    + injection E as -> <-. apply Forall_cons in Hds as [Ha _].
      destruct (is_alpha a) eqn:Ea; [|done]. apply alpha_not_digit in Ea. congruence.
    + injection E as <- _. apply Forall_app in Hls as [_ [Hc'%alpha_word _]%Forall_cons].
      congruence.
  - destruct k as [|h k]; simpl in E.
    + injection E as <- ->. apply Forall_cons in Hds as [Ha _].
      destruct (is_alpha a) eqn:Ea; [|done]. apply alpha_not_digit in Ea. congruence.
    + injection E as _ ->. apply Forall_app in Hds as [_ [Hc'%digit_word _]%Forall_cons].
      congruence.
Qed.

Lemma shape_compact_word m : shape_compact m → all_of is_word m.
Proof.
  intros (ls & ds & -> & Hls & _ & Hds & _). apply Forall_app. split.
  - eapply Forall_impl; [exact Hls|]. apply alpha_word.
  - eapply Forall_impl; [exact Hds|]. apply digit_word.
Qed.

Lemma shape_compact_inner m u c a v :
  shape_compact m → m = u ++ c :: a :: v → is_word c = false → is_alpha a = false.
Proof.
  intros Hm%shape_compact_word -> Hc.
  apply Forall_app in Hm as [_ [Hc' _]%Forall_cons]. congruence.
Qed.

(** A match that starts before a token, the token being preceded by a
    non-word character and starting with a letter, ends before it. *)
Lemma no_cross (m s2 t rest : text) :
  (∀ u c a v, m = u ++ c :: a :: v → is_word c = false → is_alpha a = false) →
  s2 ++ t = m ++ rest →
  s2 ≠ [] → is_word_opt (last s2) = false →
  (∃ a, head t = Some a ∧ is_alpha a = true) →
  length t ≤ length rest.
Proof.
  intros Hin E Hs2 Hw (a & Ha & Halpha).
  apply app_eq_inv in E as [(k & -> & ->)|(k & -> & ->)].
  - rewrite !length_app. lia.
  - destruct k as [|a' k]; [done|].
    simpl in Ha. injection Ha as ->.
    destruct (last_is_Some s2) as [_ [c Hc]]; [done|].
    rewrite Hc in Hw. simpl in Hw.
    apply last_Some in Hc as [s2' ->].
    rewrite (Hin s2' c a k) in Halpha; [done| |done].
    by rewrite <- app_assoc.
Qed.

Lemma shape_standard_ends m p :
  shape_standard m →
  (∃ a, head m = Some a ∧ is_alpha a = true) ∧
  (∃ d, lastp p m = Some d ∧ is_digit d = true).
Proof.
  intros (ls & ds & -> & Hls & Hn1 & Hds & Hn2). split.
  - destruct ls as [|a ls]; [simpl in Hn1; lia|]. exists a. split; [done|].
    by apply Forall_cons in Hls as [? _].
  - rewrite lastp_app, lastp_cons.
    destruct (last_is_Some ds) as [_ [d Hd]]; [by destruct ds; simpl in *; [lia|]|].
    exists d. unfold lastp. rewrite Hd. split; [done|].
    apply last_Some in Hd as [ds' ->]. by apply Forall_app in Hds as [_ [? _]%Forall_cons].
Qed.

Lemma shape_compact_ends m p :
  shape_compact m →
  (∃ a, head m = Some a ∧ is_alpha a = true) ∧
  (∃ d, lastp p m = Some d ∧ is_digit d = true).
Proof.
  intros (ls & ds & -> & Hls & Hn1 & Hds & Hn2). split.
  - destruct ls as [|a ls]; [simpl in Hn1; lia|]. exists a. split; [done|].
    by apply Forall_cons in Hls as [? _].
  - rewrite lastp_app.
    destruct (last_is_Some ds) as [_ [d Hd]]; [by destruct ds; simpl in *; [lia|]|].
    exists d. unfold lastp. rewrite Hd. split; [done|].
    apply last_Some in Hd as [ds' ->]. by apply Forall_app in Hds as [_ [? _]%Forall_cons].
Qed.

(** After a match that ends with a digit, [\b] asks for a non-word
    character or the end of the text. *)
Lemma boundary_after_digit d s :
  is_digit d = true → at_boundary (Some d) s = true → is_word_opt (head s) = false.
Proof.
  intros Hd%digit_word. unfold at_boundary. simpl. rewrite Hd.
  by destruct (is_word_opt (head s)).
Qed.

Lemma boundary_before_alpha p a s :
  is_alpha a = true → at_boundary p (a :: s) = true → is_word_opt p = false.
Proof.
  intros Ha%alpha_word. unfold at_boundary. simpl. rewrite Ha.
  by destruct (is_word_opt p).
Qed.

Lemma not_word_not P s :
  (∀ x, P x = true → is_word x = true) →
  is_word_opt (head s) = false → ∀ x, head s = Some x → P x = false.
Proof.
  intros HP Hw x Hx. rewrite Hx in Hw. simpl in Hw.
  destruct (P x) eqn:E; [|done]. apply HP in E. congruence.
Qed.

Lemma standard_shape_unique m1 s1 m2 s2 :
  m1 ++ s1 = m2 ++ s2 → shape_standard m1 → shape_standard m2 →
  is_word_opt (head s1) = false → is_word_opt (head s2) = false →
  m1 = m2 ∧ s1 = s2.
Proof.
  intros E (ls1 & ds1 & -> & Hls1 & _ & Hds1 & _) (ls2 & ds2 & -> & Hls2 & _ & Hds2 & _) H1 H2.
  rewrite <- !app_assoc in E. simpl in E.
  apply (span_unique is_alpha) in E as [-> E]; try done;
    try (by intros x [= <-]).
  injection E as E.
  apply (span_unique is_digit) in E as [-> ->]; try done;
    by apply not_word_not; [apply digit_word|].
Qed.

Lemma compact_shape_unique m1 s1 m2 s2 :
  m1 ++ s1 = m2 ++ s2 → shape_compact m1 → shape_compact m2 →
  is_word_opt (head s1) = false → is_word_opt (head s2) = false →
  m1 = m2 ∧ s1 = s2.
Proof.
  intros E (ls1 & ds1 & -> & Hls1 & _ & Hds1 & Hn1) (ls2 & ds2 & -> & Hls2 & _ & Hds2 & Hn2) H1 H2.
  rewrite <- !app_assoc in E.
  assert (∀ ds s x, all_of is_digit ds → 1 ≤ length ds →
                    head (ds ++ s) = Some x → is_alpha x = false) as Hhd.
  { intros [|d ds] s x Hds Hn; simpl in *; [lia|]. intros [= <-].
    apply Forall_cons in Hds as [Hd _]. destruct (is_alpha d) eqn:Ea; [|done].
    apply alpha_not_digit in Ea. congruence. }
  apply (span_unique is_alpha) in E as [-> E]; try done; eauto.
  apply (span_unique is_digit) in E as [-> ->]; try done;
    by apply not_word_not; [apply digit_word|].
Qed.

(** ** Substrings *)

Lemma is_prefix_spec a s : is_prefix a s = true ↔ ∃ r, s = a ++ r.
Proof.
  revert s. induction a as [|x a IH]; intros s; simpl.
  - split; [by exists s|done].
  - destruct s as [|y s]; [split; [done|by intros [r ?]]|].
    rewrite andb_true_iff, bool_decide_eq_true, IH. split.
    + intros [-> [r ->]]. by exists r.
    + intros [r [= -> ->]]. split; [done|by exists r].
Qed.

Lemma contains_spec a s : contains a s = true ↔ ∃ l r, s = l ++ a ++ r.
Proof.
  induction s as [|y s IH]; simpl.
  - rewrite orb_false_r, is_prefix_spec. split.
    + intros [r ->]. by exists [], r.
    + intros (l & r & E). symmetry in E. apply app_eq_nil in E as [-> E].
      apply app_eq_nil in E as [-> ->]. by exists [].
  - rewrite orb_true_iff, is_prefix_spec, IH. split.
    + intros [[r ->]|(l & r & ->)]; [by exists [], r|by exists (y :: l), r].
    + intros ([|z l] & r & E); simpl in E.
      * left. by exists r.
      * injection E as -> ->. right. by exists l, r.
Qed.

(** ** Tokens *)

Lemma lower_app a b : lower (a ++ b) = lower a ++ lower b.
Proof. apply fmap_app. Qed.

Lemma lower_length a : length (lower a) = length a.
Proof. apply length_fmap. Qed.

Lemma lower_same_length a b : lower a = lower b → length a = length b.
Proof. intros H%(f_equal length). by rewrite !lower_length in H. Qed.



Lemma last_app_nonempty (s1 s2 : text) : s2 ≠ [] → last (s1 ++ s2) = last s2.
Proof.
  intros H. rewrite last_app. destruct (last_is_Some s2) as [_ [c ->]]; done.
Qed.

Lemma shape_standard_nonempty m : shape_standard m → m ≠ [].
Proof. intros (ls & ds & -> & _). by destruct ls. Qed.

Lemma shape_compact_nonempty m : shape_compact m → m ≠ [].
Proof. intros (ls & ds & -> & _ & Hn & _). destruct ls; simpl in *; [lia|done]. Qed.

(** A token of the standard format is reported by [findall]. *)
Lemma standard_token_found pre tok post :
  shape_standard tok →
  is_word_opt (last pre) = false → is_word_opt (head post) = false →
  tok ∈ findall true pat_standard (pre ++ tok ++ post).
Proof.
  intros Hshape Hpre Hpost.
  destruct (shape_standard_ends tok (last pre) Hshape) as [(a & Ha & Halpha) (d & Hd & Hdigit)].
  apply findall_token.
  - by apply shape_standard_nonempty.
  - exists (lastp (last pre) tok). apply pat_standard_M. exists tok.
    split_and!; try done.
    + unfold at_boundary. rewrite Hpre, head_app, Ha. simpl.
      by rewrite (alpha_word _ Halpha).
    + unfold at_boundary. rewrite Hd, Hpost. simpl. by rewrite (digit_word _ Hdigit).
  - intros [p' s'] (m & E & -> & Hm & _ & Hb)%pat_standard_M. simpl.
    destruct (shape_standard_ends m (last pre) Hm) as [_ (d' & Hd' & Hdigit')].
    rewrite Hd' in Hb. apply boundary_after_digit in Hb; [|done].
    by destruct (standard_shape_unique _ _ _ _ E Hshape Hm Hpost Hb) as [_ ->].
  - intros s1 s2 [p' s'] -> Hs2 (m & E & -> & Hm & _ & _)%pat_standard_M. simpl.
    eapply (no_cross m s2 (tok ++ post) s'); try done.
    + intros u c a' v. by apply shape_standard_inner.
    + by rewrite last_app_nonempty in Hpre.
    + exists a. by rewrite head_app, Ha.
Qed.

(** A token of the compact format is reported by [findall]. *)
Lemma compact_token_found pre tok post :
  shape_compact tok →
  is_word_opt (last pre) = false → is_word_opt (head post) = false →
  tok ∈ findall true pat_compact (pre ++ tok ++ post).
Proof.
  intros Hshape Hpre Hpost.
  destruct (shape_compact_ends tok (last pre) Hshape) as [(a & Ha & Halpha) (d & Hd & Hdigit)].
  apply findall_token.
  - by apply shape_compact_nonempty.
  - exists (lastp (last pre) tok). apply pat_compact_M. exists tok.
    split_and!; try done.
    + unfold at_boundary. rewrite Hpre, head_app, Ha. simpl.
      by rewrite (alpha_word _ Halpha).
    + unfold at_boundary. rewrite Hd, Hpost. simpl. by rewrite (digit_word _ Hdigit).
  - intros [p' s'] (m & E & -> & Hm & _ & Hb)%pat_compact_M. simpl.
    destruct (shape_compact_ends m (last pre) Hm) as [_ (d' & Hd' & Hdigit')].
    rewrite Hd' in Hb. apply boundary_after_digit in Hb; [|done].
    by destruct (compact_shape_unique _ _ _ _ E Hshape Hm Hpost Hb) as [_ ->].
  - intros s1 s2 [p' s'] -> Hs2 (m & E & -> & Hm & _ & _)%pat_compact_M. simpl.
    eapply (no_cross m s2 (tok ++ post) s'); try done.
    + intros u c a' v. by apply shape_compact_inner.
    + by rewrite last_app_nonempty in Hpre.
    + exists a. by rewrite head_app, Ha.
Qed.

(** The shapes do not depend on the letter casing. *)
Lemma all_of_lower P m :
  (∀ x, P (lower_char x) = P x) → all_of P (lower m) ↔ all_of P m.
Proof.
  intros HP. unfold all_of, lower. rewrite Forall_fmap. apply Forall_proper; [|done].
  intros x. simpl. by rewrite HP.
Qed.

Lemma lower_hyphen x : lower_char x = "-"%char → x = "-"%char.
Proof. by_cases_on_char x. Qed.

Lemma shape_standard_lower m : shape_standard (lower m) ↔ shape_standard m.
Proof.
  split.
  - intros (ls & ds & E & Hls & Hn1 & Hds & Hn2).
    apply fmap_app_inv in E as (ls' & r & -> & E & ->).
    symmetry in E. apply fmap_cons_inv in E as (c & ds' & Hc & -> & ->).
    symmetry in Hc. apply lower_hyphen in Hc as ->.
    exists ls', ds'. rewrite length_fmap in Hn1, Hn2.
    apply (all_of_lower is_alpha ls') in Hls; [|apply lower_alpha].
    apply (all_of_lower is_digit ds') in Hds; [|apply lower_digit]. done.
  - intros (ls & ds & -> & Hls & Hn1 & Hds & Hn2).
    exists (lower ls), (lower ds). rewrite !lower_length. split_and!; try done.
    + by rewrite lower_app.
    + by apply all_of_lower; [apply lower_alpha|].
    + by apply all_of_lower; [apply lower_digit|].
Qed.

Lemma shape_compact_lower m : shape_compact (lower m) ↔ shape_compact m.
Proof.
  split.
  - intros (ls & ds & E & Hls & Hn1 & Hds & Hn2).
    apply fmap_app_inv in E as (ls' & ds' & -> & -> & ->).
    exists ls', ds'. rewrite length_fmap in Hn1, Hn2.
    apply (all_of_lower is_alpha ls') in Hls; [|apply lower_alpha].
    apply (all_of_lower is_digit ds') in Hds; [|apply lower_digit]. done.
  - intros (ls & ds & -> & Hls & Hn1 & Hds & Hn2).
    exists (lower ls), (lower ds). rewrite !lower_length. split_and!; try done.
    + by apply lower_app.
    + by apply all_of_lower; [apply lower_alpha|].
    + by apply all_of_lower; [apply lower_digit|].
Qed.

Lemma elem_of_extract_ticket_ids x t :
  x ∈ extract_ticket_ids t ↔
  ∃ pat m, pat ∈ TICKET_PATTERNS ∧ m ∈ findall true pat t ∧ x = upper m.
Proof.
  unfold extract_ticket_ids, TICKET_PATTERNS. cbn [foldl].
  rewrite !elem_of_union, !elem_of_list_to_set, !list_elem_of_fmap. split.
  - intros [[[]%not_elem_of_empty|(m & -> & Hm)]|(m & -> & Hm)].
    + exists pat_standard, m. split_and!; try done. apply elem_of_cons. by left.
    + exists pat_compact, m. split_and!; try done. apply elem_of_cons. right.
      apply elem_of_cons. by left.
  - intros (pat & m & Hpat & Hm & ->).
    apply elem_of_cons in Hpat as [->|Hpat]; [left; right; by exists m|].
    apply elem_of_cons in Hpat as [->|[]%elem_of_nil]. right. by exists m.
Qed.








(** ** Lines *)

Lemma truthy_true {A} (l : list A) : truthy l = true ↔ l ≠ [].
Proof. by destruct l. Qed.

Lemma truthy_false {A} (l : list A) : truthy l = false ↔ l = [].
Proof. by destruct l. Qed.

Lemma split_lines_nonempty s : split_lines s ≠ [].
Proof.
  induction s as [|c s IH]; simpl; [done|].
  case_bool_decide; [done|]. by destruct (split_lines s).
Qed.

Lemma split_lines_no_NL s : Forall (λ l, NL ∉ l) (split_lines s).
Proof.
  induction s as [|c s IH]; simpl.
  - repeat constructor. by intros ?%elem_of_nil.
  - case_bool_decide as Hc.
    + constructor; [by intros ?%elem_of_nil|done].
    + destruct (split_lines s) as [|l ls] eqn:E; [by apply split_lines_nonempty in E|].
      apply Forall_cons in IH as [Hl Hls]. constructor; [|done].
      intros [E'|?]%elem_of_cons; [by apply Hc|done].
Qed.

Lemma split_lines_line (l : text) : NL ∉ l → split_lines l = [l].
Proof.
  induction l as [|c l IH]; simpl; [done|]. intros Hn.
  rewrite bool_decide_eq_false_2.
  - rewrite IH; [done|]. intros ?. apply Hn. by apply elem_of_cons; right.
  - intros ->. apply Hn. by apply elem_of_cons; left.
Qed.

Lemma split_lines_app_NL (l rest : text) :
  NL ∉ l → split_lines (l ++ NL :: rest) = l :: split_lines rest.
Proof.
  induction l as [|c l IH]; simpl.
  - done.
  - intros Hn. rewrite bool_decide_eq_false_2.
    + rewrite IH; [done|]. intros ?. apply Hn. by apply elem_of_cons; right.
    + intros ->. apply Hn. by apply elem_of_cons; left.
Qed.

(** Splitting what was joined gives the lines back. *)
Lemma split_join (ls : list text) :
  ls ≠ [] → Forall (λ l, NL ∉ l) ls → split_lines (join_lines ls) = ls.
Proof.
  induction ls as [|l ls IH]; [done|]. intros _ [Hl Hls]%Forall_cons.
  destruct ls as [|l' ls].
  - simpl. by apply split_lines_line.
  - change (join_lines (l :: l' :: ls)) with (l ++ NL :: join_lines (l' :: ls)).
    rewrite split_lines_app_NL by done. by rewrite IH.
Qed.

Lemma join_split s : join_lines (split_lines s) = s.
Proof.
  induction s as [|c s IH]; simpl; [done|].
  case_bool_decide as Hc.
  - subst c. destruct (split_lines s) as [|l ls] eqn:E; [by apply split_lines_nonempty in E|].
    by rewrite <- IH.
  - destruct (split_lines s) as [|l ls] eqn:E; [by apply split_lines_nonempty in E|].
    rewrite <- IH. by destruct ls.
Qed.

(** ** [deduplicate_content] *)

Lemma dedup_fold lines : ∀ seen unique_lines,
  foldl dedup_step (seen, unique_lines) lines =
  (foldl (λ seen l, (if truthy (line_key l) && negb (bool_decide (line_key l ∈ seen))
                     then {[line_key l]} ∪ seen else seen)) seen lines,
   unique_lines ++ kept_lines seen lines).
Proof.
  induction lines as [|l ls IH]; intros seen u; simpl.
  - by rewrite app_nil_r.
  - unfold dedup_step at 2. simpl. fold (line_key l).
    destruct (truthy (line_key l) && negb (bool_decide (line_key l ∈ seen))).
    + rewrite IH. by rewrite <- app_assoc.
    + by rewrite IH.
Qed.

Lemma deduplicate_content_kept t :
  deduplicate_content t = join_lines (kept_lines ∅ (split_lines t)).
Proof. unfold deduplicate_content. by rewrite dedup_fold. Qed.

Lemma keep_cond (seen : gset text) l :
  truthy (line_key l) && negb (bool_decide (line_key l ∈ seen)) = true ↔
  line_key l ≠ [] ∧ line_key l ∉ seen.
Proof.
  by rewrite andb_true_iff, truthy_true, negb_true_iff, bool_decide_eq_false.
Qed.

Lemma kept_lines_cons (seen : gset text) x ls :
  kept_lines seen (x :: ls) =
  if decide (line_key x ≠ [] ∧ line_key x ∉ seen)
  then x :: kept_lines ({[line_key x]} ∪ seen) ls else kept_lines seen ls.
Proof.
  simpl. destruct (truthy _ && _) eqn:E.
  - apply keep_cond in E. by rewrite decide_True.
  - rewrite decide_False; [done|]. intros H%keep_cond. congruence.
Qed.

(** Each line is kept exactly when its key is not empty and is not the
    key of an earlier line. *)
Lemma kept_lines_snoc pre l : ∀ seen,
  kept_lines seen (pre ++ [l]) =
  kept_lines seen pre ++
  (if decide (line_key l ≠ [] ∧ (line_key l ∉ seen) ∧ line_key l ∉ (line_key <$> pre))
   then [l] else []).
Proof.
  induction pre as [|x pre IH]; intros seen.
  - rewrite app_nil_l, kept_lines_cons. simpl.
    destruct (decide (line_key l ≠ [] ∧ line_key l ∉ seen)) as [[H1 H2]|Hn].
    + rewrite decide_True; [done|]. split_and!; try done. by intros ?%elem_of_nil.
    + rewrite decide_False; [done|]. naive_solver.
  - rewrite <- app_comm_cons, !kept_lines_cons, fmap_cons.
    destruct (decide (line_key x ≠ [] ∧ line_key x ∉ seen)) as [[H1 H2]|Hn].
    + rewrite IH. rewrite <- app_comm_cons. f_equal. f_equal.
      destruct (decide (line_key l ≠ [] ∧ (line_key l ∉ ({[line_key x]} ∪ seen)) ∧
                        line_key l ∉ (line_key <$> pre))) as [(?&Hu&?)|Hn].
      * rewrite decide_True; [done|]. split_and!; try done; [set_solver|].
        rewrite elem_of_cons. set_solver.
      * rewrite decide_False; [done|]. intros (?&?&Hc). apply Hn.
        rewrite elem_of_cons in Hc. split_and!; try done; [|naive_solver].
        rewrite elem_of_union, elem_of_singleton. naive_solver.
    + rewrite IH. f_equal.
      destruct (decide (line_key l ≠ [] ∧ (line_key l ∉ seen) ∧
                        line_key l ∉ (line_key <$> pre))) as [(?&?&?)|Hn'].
      * rewrite decide_True; [done|]. split_and!; try done.
        rewrite elem_of_cons. intros [E|?]; [|done]. apply Hn. by rewrite <- E.
      * rewrite decide_False; [done|]. intros (?&?&Hc). apply Hn'.
        rewrite elem_of_cons in Hc. split_and!; try done. naive_solver.
Qed.

Lemma kept_lines_sublist lines : ∀ seen, sublist (kept_lines seen lines) lines.
Proof.
  induction lines as [|l ls IH]; intros seen; simpl; [done|].
  destruct (_ && _); [by apply sublist_skip|by apply sublist_cons].
Qed.

Lemma kept_lines_keys lines : ∀ seen,
  NoDup (line_key <$> kept_lines seen lines) ∧
  (∀ l, l ∈ kept_lines seen lines → line_key l ≠ [] ∧ line_key l ∉ seen).
Proof.
  induction lines as [|l ls IH]; intros seen; simpl.
  - split; [constructor|by intros ? ?%elem_of_nil].
  - destruct (truthy (line_key l) && negb (bool_decide (line_key l ∈ seen))) eqn:E;
      [|apply IH].
    apply andb_true_iff in E as [E1%truthy_true E2%negb_true_iff%bool_decide_eq_false].
    destruct (IH ({[line_key l]} ∪ seen)) as [Hnd Hk]. split.
    + simpl. constructor; [|done]. intros (y & Hy & Hin)%list_elem_of_fmap.
      apply Hk in Hin as [_ Hin]. set_solver.
    + intros y [->|Hy]%elem_of_cons; [done|]. apply Hk in Hy as [? ?]. set_solver.
Qed.

Lemma kept_lines_complete lines : ∀ seen l,
  l ∈ lines → line_key l ≠ [] → line_key l ∉ seen →
  line_key l ∈ (line_key <$> kept_lines seen lines).
Proof.
  induction lines as [|x ls IH]; intros seen l; simpl; [by intros ?%elem_of_nil|].
  intros Hin Hk Hs.
  destruct (truthy (line_key x) && negb (bool_decide (line_key x ∈ seen))) eqn:E.
  - simpl. destruct (decide (line_key l = line_key x)) as [->|Hne].
    + apply elem_of_cons. by left.
    + apply elem_of_cons. right. apply elem_of_cons in Hin as [->|Hin]; [done|].
      apply IH; try done. set_solver.
  - apply elem_of_cons in Hin as [->|Hin]; [|by apply IH].
    apply andb_false_iff in E as [E%truthy_false|E%negb_false_iff%bool_decide_eq_true]; done.
Qed.

(** Lines with distinct, non-empty, unseen keys are all kept. *)
Lemma kept_lines_fixed lines : ∀ seen,
  NoDup (line_key <$> lines) →
  (∀ l, l ∈ lines → line_key l ≠ [] ∧ line_key l ∉ seen) →
  kept_lines seen lines = lines.
Proof.
  induction lines as [|l ls IH]; intros seen Hnd Hk; simpl; [done|].
  apply NoDup_cons in Hnd as [Hl Hnd].
  destruct (Hk l) as [Hk1 Hk2]; [by apply elem_of_cons; left|].
  apply truthy_true in Hk1. rewrite Hk1. rewrite bool_decide_eq_false_2 by done. simpl.
  f_equal. apply IH; [done|]. intros y Hy.
  destruct (Hk y) as [? ?]; [by apply elem_of_cons; right|]. split; [done|].
  intros [E%elem_of_singleton|?]%elem_of_union; [|done].
  apply Hl. rewrite <- E. by apply list_elem_of_fmap_2.
Qed.

Lemma line_key_nil : line_key [] = [].
Proof. reflexivity. Qed.

(** C6. [deduplicate_content] is idempotent. *)
Theorem C6_deduplicate_idempotent (x : text) :
  deduplicate_content (deduplicate_content x) = deduplicate_content x.
Proof.
  rewrite !deduplicate_content_kept.
  set (kept := kept_lines ∅ (split_lines x)).
  destruct (kept_lines_keys (split_lines x) ∅) as [Hnd Hk]. fold kept in Hnd, Hk.
  destruct (decide (kept = [])) as [->|Hne]; [done|].
  rewrite split_join.
  - by rewrite kept_lines_fixed.
  - done.
  - eapply Forall_forall. intros l Hl.
    pose proof (split_lines_no_NL x) as HNL.
    eapply (proj1 (Forall_forall _ _) HNL).
    eapply elem_of_sublist; [exact Hl|]. apply kept_lines_sublist.
Qed.




(** ** The partition of the structurer *)

Lemma partition_fold l : ∀ acc,
  foldl partition_step acc l =
  (acc.1 ++ filter (λ x, is_active x.2 = true) l,
   acc.2 ++ filter (λ x, is_active x.2 = false) l).
Proof.
  induction l as [|x l IH]; intros [a m]; simpl.
  - by rewrite !app_nil_r.
  - rewrite IH. unfold partition_step. simpl.
    destruct (is_active x.2) eqn:E; simpl.
    + rewrite filter_cons_True, filter_cons_False by (by rewrite ?E).
      by rewrite <- app_assoc.
    + rewrite filter_cons_False, filter_cons_True by (by rewrite ?E).
      by rewrite <- app_assoc.
Qed.

Lemma partition_tickets_filter (c : gmap text entry) :
  partition_tickets c =
  (filter (λ x, is_active x.2 = true) (map_to_list c),
   filter (λ x, is_active x.2 = false) (map_to_list c)).
Proof. unfold partition_tickets. by rewrite partition_fold. Qed.

Lemma is_active_spec e :
  is_active e = true ↔
  git_commits e ≠ [] ∨ time_tracked e = true ∨ mentioned_in_notes e = true.
Proof.
  unfold is_active. rewrite !orb_true_iff, truthy_true. tauto.
Qed.

Lemma partition_spec (c : gmap text entry) :
  let active := (partition_tickets c).1 in
  let mentioned := (partition_tickets c).2 in
  (∀ k e, (k, e) ∈ active ↔ c !! k = Some e ∧ is_active e = true) ∧
  (∀ k e, (k, e) ∈ mentioned ↔ c !! k = Some e ∧ is_active e = false) ∧
  NoDup ((active ++ mentioned).*1).
Proof.
  rewrite partition_tickets_filter. simpl. split_and!.
  - intros k e. rewrite list_elem_of_filter, elem_of_map_to_list. simpl. tauto.
  - intros k e. rewrite list_elem_of_filter, elem_of_map_to_list. simpl. tauto.
  - pose proof (NoDup_fst_map_to_list c) as Hnd.
    rewrite fmap_app. apply NoDup_app. split_and!.
    + refine (sublist_NoDup _ _ Hnd _). apply fmap_sublist, sublist_filter.
    + intros k ((k1 & e1) & -> & H1)%list_elem_of_fmap ((k2 & e2) & E & H2)%list_elem_of_fmap.
      simpl in E. subst k2.
      apply list_elem_of_filter in H1 as [A1 H1]. apply list_elem_of_filter in H2 as [A2 H2].
      apply elem_of_map_to_list in H1, H2. simpl in *. congruence.
    + refine (sublist_NoDup _ _ Hnd _). apply fmap_sublist, sublist_filter.
Qed.

(** C3. The structurer sorts every entry of a correlated mapping into
    exactly one of the two groups, and into the active one exactly
    when the entry has a commit, is time-tracked or is mentioned in the
    notes. *)
Theorem C3_partition_exhaustive_disjoint (notes : text) (jira_tickets : list jira_ticket)
    (git_log timew_data : text) :
  let c := correlate_ticket_data notes jira_tickets git_log timew_data in
  let active := (partition_tickets c).1 in
  let mentioned := (partition_tickets c).2 in
  (∀ k e, c !! k = Some e →
     ((k, e) ∈ active ∧ k ∉ mentioned.*1) ∨ ((k, e) ∈ mentioned ∧ k ∉ active.*1)) ∧
  (∀ k e, (k, e) ∈ active ++ mentioned → c !! k = Some e) ∧
  NoDup ((active ++ mentioned).*1) ∧
  (∀ k e, (k, e) ∈ active ↔
     c !! k = Some e ∧
     (git_commits e ≠ [] ∨ time_tracked e = true ∨ mentioned_in_notes e = true)).
Proof.
  intros c active mentioned.
  destruct (partition_spec c) as (Ha & Hm & Hnd). fold active mentioned in Ha, Hm, Hnd.
  split_and!.
  - intros k e Hk. destruct (is_active e) eqn:E.
    + left. split; [by apply Ha|].
      intros ((k' & e') & -> & [He' A]%Hm)%list_elem_of_fmap. simpl in *. congruence.
    + right. split; [by apply Hm|].
      intros ((k' & e') & -> & [He' A]%Ha)%list_elem_of_fmap. simpl in *. congruence.
  - intros k e [[? _]%Ha|[? _]%Hm]%elem_of_app; done.
  - done.
  - intros k e. by rewrite Ha, is_active_spec.
Qed.

(** ** The end-to-end example *)

Example extract_ex1 :
  extract_ticket_ids (str "see abcd-1234, WXYZ5678 and ABCD-1234; x-1 A-2") =
  {[ str "ABCD-1234"; str "WXYZ5678" ]}.
Proof. vm_compute. reflexivity. Qed.

Lemma example_document_text :
  example_document =
  str "=== TIMEFRAME ===" ++ [NL] ++
  str "Period: 2024-01-01 to 2024-01-02" ++ [NL] ++
  str "Yesterday: Monday, January 01" ++ [NL] ++
  str "Today: Tuesday, January 02" ++ [NL] ++
  [NL] ++
  str "=== TICKET WORK ===" ++ [NL] ++
  str "ACTIVELY WORKED ON:" ++ [NL] ++
  [NL] ++ BULLET ++ str " ABC123" ++ [NL] ++
  str "  Commits: 1 commit(s)" ++ [NL] ++
  str "    - abc123 2024-01-01 | fix INFRA-1 bug" ++ [NL] ++
  example_block ++
  [NL] ++
  str "=== WORK NOTES ===" ++ [NL] ++
  str "Worked on INFRA-1 today".
Proof. vm_compute. reflexivity. Qed.

(** C2. The end-to-end example: the document has the ticket-work
    header, an actively-worked-on block for INFRA-1 with its summary, its
    status, one commit line and its context, and no also-tracking
    section. *)
Theorem C2_end_to_end_example :
  contains (str "=== TICKET WORK ===") example_document = true ∧
  contains (str "ACTIVELY WORKED ON:") example_document = true ∧
  contains example_block example_document = true ∧
  contains (str "ALSO TRACKING:") example_document = false.
Proof. vm_compute. auto. Qed.

(** C7, where the code departs from it: a lower-case mention in the
    time-tracking text is recognised, and the entry is marked as
    time-tracked, but the duration on the same line is not picked up,
    because the lookup compares the upper-cased identifier with the
    lines as they are.  The same line in upper case yields the
    duration. *)
Theorem C7_lowercase_mention_loses_duration :
  let lower_case := str "infra-1 1:30:00" in
  let upper_case := str "INFRA-1 1:30:00" in
  extract_ticket_ids lower_case = {[ str "INFRA-1" ]} ∧
  (time_tracked <$> correlate_ticket_data [] [] [] lower_case !! str "INFRA-1") = Some true ∧
  (time_duration <$> correlate_ticket_data [] [] [] lower_case !! str "INFRA-1") = Some None ∧
  (time_duration <$> correlate_ticket_data [] [] [] upper_case !! str "INFRA-1")
    = Some (Some (str "1:30:00")) ∧
  extract_git_commits_for_ticket (str "abc fix infra-1") (str "INFRA-1")
    = [str "abc fix infra-1"].
Proof. vm_compute. auto 10. Qed.

(** ** The context windower *)

Lemma escape_cons c cs :
  cs ≠ [] → escape (c :: cs) = Cat (Lit c) (escape cs).
Proof. by destruct cs. Qed.

Lemma lower_cons x m : lower (x :: m) = lower_char x :: lower m.
Proof. done. Qed.

Lemma escape_M ident : ∀ p s p' s',
  M true (escape ident) (p, s) (p', s') ↔
  ∃ m, s = m ++ s' ∧ p' = lastp p m ∧ lower m = lower ident.
Proof.
  induction ident as [|c cs IH]; intros p s p' s'.
  - simpl. split.
    + intros [= <- <-]. by exists [].
    + intros (m & -> & -> & Hm). destruct m; [done|discriminate].
  - assert (M true (Lit c) (p, s) (p', s') ↔
            ∃ m, s = m ++ s' ∧ p' = lastp p m ∧ lower m = lower [c]) as Hone.
    { simpl. unfold one_rel, lit_ok. simpl. split.
      - intros (x & -> & -> & Hx%bool_decide_eq_true). exists [x].
        split_and!; try done. simpl. by rewrite Hx.
      - intros (m & -> & -> & Hm). destruct m as [|x [|y m]]; try discriminate.
        injection Hm as Hm. exists x. split_and!; try done. by apply bool_decide_eq_true. }
    destruct cs as [|c' cs]; [exact Hone|].
    rewrite escape_cons by done. cbn [M]. split.
    + intros ([p1 s1] & (x & Hs & Hp & Hx%bool_decide_eq_true) & H2). simpl in *. subst.
      apply IH in H2 as (m & -> & -> & Hm). exists (x :: m).
      split_and!; try done.
      * by rewrite lastp_cons.
      * rewrite !lower_cons in *. by rewrite Hx, Hm.
    + intros (m & -> & -> & Hm). destruct m as [|x m]; [discriminate|].
      rewrite lower_cons, (lower_cons c) in Hm. injection Hm as Hx Hm.
      exists (Some x, m ++ s'). split.
      * exists x. split_and!; try done. by apply bool_decide_eq_true.
      * apply IH. exists m. by rewrite lastp_cons.
Qed.


Lemma context_pattern_M ident p s p' s' :
  M true (context_pattern ident) (p, s) (p', s') ↔
  ∃ m, s = m ++ s' ∧ p' = lastp p m ∧ lower m = lower ident ∧
       at_boundary p s = true ∧ at_boundary p' s' = true.
Proof.
  unfold context_pattern. cbn [Seq M]. split.
  - intros ([p1 s1] & [[= <- <-] Hb1] & [p2 s2] & HH & [[= -> ->] Hb2]).
    apply escape_M in HH as (m & -> & -> & Hm). exists m. done.
  - intros (m & -> & -> & Hm & Hb1 & Hb2).
    exists (p, m ++ s'). split; [done|].
    exists (lastp p m, s'). split; [|done]. apply escape_M. by exists m.
Qed.


Lemma prefix_ci ident s :
  is_prefix (lower ident) (lower s) = true ↔
  ∃ m s', s = m ++ s' ∧ lower m = lower ident.
Proof.
  rewrite is_prefix_spec. split.
  - intros [r Hr]. exists (take (length ident) s), (drop (length ident) s).
    split; [by rewrite take_drop|].
    unfold lower at 1. rewrite fmap_take. fold (lower s). rewrite Hr.
    rewrite <- (lower_length ident). by rewrite take_app_length.
  - intros (m & s' & -> & Hm). exists (lower s'). by rewrite lower_app, Hm.
Qed.

Lemma occurs_here_M ident p s :
  occurs_here ident p s = true ↔ ∃ b, M true (context_pattern ident) (p, s) b.
Proof.
  unfold occurs_here. rewrite !andb_true_iff, prefix_ci. split.
  - intros [[Hb1 (m & s' & -> & Hm)] Hb2].
    pose proof (lower_same_length _ _ Hm) as Hlen.
    rewrite <- Hlen, take_app_length, drop_app_length in Hb2.
    exists (lastp p m, s'). apply context_pattern_M. by exists m.
  - intros ([p' s'] & (m & -> & -> & Hm & Hb1 & Hb2)%context_pattern_M).
    pose proof (lower_same_length _ _ Hm) as Hlen.
    rewrite <- Hlen, take_app_length, drop_app_length. split_and!; try done.
    by exists m, s'.
Qed.

Lemma search_at_unfold ic r i p s :
  search_at ic r i p s =
  match mt ic r p s (λ p' s', Some (p', s')) with
  | Some (p', s') => Some (Found i s p' s')
  | None => match s with
            | [] => None
            | x :: s' => search_at ic r (S i) (Some x) s'
            end
  end.
Proof. by destruct s. Qed.

Lemma occurrence_from_unfold ident i p s :
  occurrence_from ident i p s =
  if occurs_here ident p s then Some i
  else match s with
       | [] => None
       | x :: s' => occurrence_from ident (S i) (Some x) s'
       end.
Proof. by destruct s. Qed.

Lemma search_occurrence ident : ∀ s i pre0,
  match search_at true (context_pattern ident) i (last pre0) s with
  | Some f =>
      occurrence_from ident i (last pre0) s = Some (f_skipped f) ∧
      i ≤ f_skipped f ∧
      length (f_rest f) + length ident + (f_skipped f - i) = length s
  | None => occurrence_from ident i (last pre0) s = None
  end.
Proof.
  induction s as [|x s IH]; intros i pre0;
    rewrite search_at_unfold, occurrence_from_unfold;
    destruct (mt true _ _ _ _) as [[p' s']|] eqn:E.
  - apply mt_sound in E as (p1 & s1 & HM & [= -> ->]).
    assert (occurs_here ident (last pre0) [] = true) as ->
      by (apply occurs_here_M; eauto).
    apply context_pattern_M in HM as (m & Hs & _ & Hm & _).
    symmetry in Hs. apply app_eq_nil in Hs as [-> ->].
    apply lower_same_length in Hm. simpl in *. split_and!; try done; lia.
  - destruct (occurs_here ident (last pre0) []) eqn:Eo; [|done].
    apply occurs_here_M in Eo as [[p' s'] HM].
    by eapply mt_complete in E; [|exact HM].
  - apply mt_sound in E as (p1 & s1 & HM & [= -> ->]).
    assert (occurs_here ident (last pre0) (x :: s) = true) as ->
      by (apply occurs_here_M; eauto).
    apply context_pattern_M in HM as (m & Hs & _ & Hm & _).
    apply lower_same_length in Hm. apply (f_equal length) in Hs.
    rewrite length_app in Hs. simpl in *. split_and!; try done; lia.
  - destruct (occurs_here ident (last pre0) (x :: s)) eqn:Eo.
    { apply occurs_here_M in Eo as [[p' s'] HM].
      by eapply mt_complete in E; [|exact HM]. }
    replace (Some x) with (last (pre0 ++ [x])) by apply last_snoc.
    specialize (IH (S i) (pre0 ++ [x])).
    destruct (search_at true _ _ _ s) as [f|]; [|done].
    destruct IH as (Ho & Hi & Hl). split_and!; try done; [lia|]. simpl. lia.
Qed.



(** ** The correlator, key by key *)

Lemma at_key_lookup (k : text) (f : entry → entry) (c : gmap text entry) (k' : text) :
  at_key k f c !! k' =
  if decide (k' = k) then Some (f (default default_entry (c !! k))) else c !! k'.
Proof.
  unfold at_key. destruct (decide (k' = k)) as [->|Hne].
  - by rewrite lookup_insert_eq.
  - by rewrite lookup_insert_ne.
Qed.

Lemma for_tickets_lookup (tickets : gset text) (step : text → entry → entry)
    (c : gmap text entry) (k : text) :
  for_tickets tickets step c !! k =
  if decide (k ∈ tickets) then Some (step k (default default_entry (c !! k)))
  else c !! k.
Proof.
  unfold for_tickets.
  pose (P := λ (r : gmap text entry) (X : gset text),
          ∀ k, r !! k = if decide (k ∈ X)
                        then Some (step k (default default_entry (c !! k)))
                        else c !! k).
  cut (P (set_fold (λ ticket c, at_key ticket (step ticket) c) c tickets) tickets);
    [intros H; apply H|].
  apply (set_fold_ind_L P); unfold P; clear P k.
  - intros k. rewrite decide_False; [done|]. apply not_elem_of_empty.
  - intros x X r Hx IH k. rewrite at_key_lookup.
    destruct (decide (k = x)) as [->|Hne].
    + rewrite decide_True by set_solver. by rewrite IH, decide_False.
    + rewrite IH. destruct (decide (k ∈ X)).
      * by rewrite decide_True by set_solver.
      * by rewrite decide_False by set_solver.
Qed.

Lemma set_jira_idemp r r' e : set_jira r (set_jira r' e) = set_jira r e.
Proof. done. Qed.

Lemma jira_fold_lookup jira_tickets : ∀ (c : gmap text entry) k,
  foldl (λ c t, jira_step t c) c jira_tickets !! k =
  match tracker_record k jira_tickets with
  | Some r => Some (set_jira r (default default_entry (c !! k)))
  | None => c !! k
  end.
Proof.
  induction jira_tickets as [|t ts IH] using rev_ind; intros c k.
  - unfold tracker_record. simpl. by destruct (truthy k).
  - rewrite foldl_snoc. unfold tracker_record in *. rewrite filter_app.
    unfold jira_step. destruct (truthy (get_key t)) eqn:Et.
    + rewrite at_key_lookup. destruct (decide (k = get_key t)) as [->|Hne].
      * rewrite Et. rewrite filter_cons_True by done. rewrite filter_nil, last_snoc.
        rewrite IH, Et. by destruct (last _).
      * rewrite filter_cons_False by done. rewrite filter_nil, app_nil_r. apply IH.
    + destruct (decide (k = get_key t)) as [->|Hne].
      * rewrite Et. specialize (IH c (get_key t)). by rewrite Et in IH.
      * rewrite filter_cons_False by done. rewrite filter_nil, app_nil_r. apply IH.
Qed.

Lemma tracker_record_Some k jira_tickets r :
  tracker_record k jira_tickets = Some r → r ∈ jira_tickets ∧ get_key r = k ∧ k ≠ [].
Proof.
  unfold tracker_record. destruct (truthy k) eqn:Ek; [|done].
  intros [l Hl]%last_Some.
  assert (r ∈ filter (λ t, get_key t = k) jira_tickets) as [? ?]%list_elem_of_filter.
  { rewrite Hl. apply elem_of_app. right. by apply elem_of_cons; left. }
  by apply truthy_true in Ek.
Qed.

Lemma tracker_record_is_Some k jira_tickets r :
  r ∈ jira_tickets → get_key r = k → k ≠ [] → is_Some (tracker_record k jira_tickets).
Proof.
  intros Hr Hk Hne. unfold tracker_record. apply truthy_true in Hne. rewrite Hne.
  apply last_is_Some. intros Hf.
  assert (r ∈ filter (λ t, get_key t = k) jira_tickets) as Hin
    by (by apply list_elem_of_filter).
  rewrite Hf in Hin. by apply elem_of_nil in Hin.
Qed.

(** The result of the correlator, entry by entry. *)
Lemma correlate_lookup notes jira_tickets git_log timew_data k :
  correlate_ticket_data notes jira_tickets git_log timew_data !! k =
  if decide (k ∈ extract_ticket_ids notes ∨ is_Some (tracker_record k jira_tickets) ∨
             k ∈ extract_ticket_ids git_log ∨ k ∈ extract_ticket_ids timew_data)
  then Some (correlated_entry notes jira_tickets git_log timew_data k)
  else None.
Proof.
  unfold correlate_ticket_data, correlated_entry.
  rewrite !for_tickets_lookup, jira_fold_lookup, for_tickets_lookup, lookup_empty.
  unfold timew_step, git_step, note_step, set_jira.
  destruct (decide (k ∈ extract_ticket_ids notes)) as [HN|HN];
  destruct (tracker_record k jira_tickets) as [r|] eqn:HJ;
  destruct (decide (k ∈ extract_ticket_ids git_log)) as [HG|HG];
  destruct (decide (k ∈ extract_ticket_ids timew_data)) as [HT|HT];
  rewrite ?(bool_decide_eq_true_2 _ HN), ?(bool_decide_eq_false_2 _ HN),
          ?(bool_decide_eq_true_2 _ HT), ?(bool_decide_eq_false_2 _ HT);
  simpl;
  try (rewrite decide_True by (unfold is_Some; eauto 6));
  try (rewrite decide_False by (unfold is_Some; intros [?|[[? ?]|[?|?]]]; done));
  try done;
  destruct (truthy (extract_context notes k 100));
  destruct (extract_time_duration timew_data k) as [d|]; try done;
  destruct (truthy d); done.
Qed.

(** ** What the extractor returns *)



Lemma ticket_char_plain x : ticket_char x = true → is_space x = false ∧ x ≠ NL.
Proof.
  unfold ticket_char. intros [H|H%bool_decide_eq_true]%orb_true_iff.
  - split; [by apply word_not_space|by apply word_not_NL].
  - subst x. split; [done|]. by vm_compute.
Qed.

Lemma shape_standard_chars m : shape_standard m → all_of ticket_char m.
Proof.
  intros (ls & ds & -> & Hls & _ & Hds & _). apply Forall_app. split.
  - eapply Forall_impl; [exact Hls|]. intros x Hx%alpha_word. unfold ticket_char.
    by rewrite Hx.
  - constructor; [done|]. eapply Forall_impl; [exact Hds|].
    intros x Hx%digit_word. unfold ticket_char. by rewrite Hx.
Qed.

Lemma shape_compact_chars m : shape_compact m → all_of ticket_char m.
Proof.
  intros Hm%shape_compact_word. eapply Forall_impl; [exact Hm|].
  intros x Hx. unfold ticket_char. by rewrite Hx.
Qed.

(** Every identifier that the extractor returns is the upper case of a
    piece of the text that is not empty and consists of letters, digits
    and hyphens. *)
Lemma extract_occurrence x t :
  x ∈ extract_ticket_ids t →
  ∃ pre m post, t = pre ++ m ++ post ∧ x = upper m ∧ m ≠ [] ∧ all_of ticket_char m.
Proof.
  intros (pat & m & Hpat & Hm & ->)%elem_of_extract_ticket_ids.
  apply findall_sound in Hm as (pre & post & p' & -> & HM).
  exists pre, m, post.
  apply elem_of_cons in Hpat as [->|Hpat];
    [|apply elem_of_cons in Hpat as [->|Hpat]; [|by apply elem_of_nil in Hpat]].
  - apply pat_standard_M in HM as (m' & E & _ & Hs & _).
    apply app_inv_tail in E as <-. split_and!; try done.
    + by apply shape_standard_nonempty.
    + by apply shape_standard_chars.
  - apply pat_compact_M in HM as (m' & E & _ & Hs & _).
    apply app_inv_tail in E as <-. split_and!; try done.
    + by apply shape_compact_nonempty.
    + by apply shape_compact_chars.
Qed.

(** ** Commit lines *)

Lemma lstrip_keeps x l : x ∈ l → is_space x = false → x ∈ lstrip l.
Proof.
  induction l as [|c l IH]; simpl; [done|]. intros Hin Hx.
  destruct (is_space c) eqn:Ec; [|done].
  apply elem_of_cons in Hin as [->|Hin]; [congruence|by apply IH].
Qed.

Lemma strip_keeps x l : x ∈ l → is_space x = false → x ∈ strip l.
Proof.
  intros Hin Hx. unfold strip, rstrip. apply elem_of_reverse.
  apply lstrip_keeps; [|done]. apply elem_of_reverse. by apply lstrip_keeps.
Qed.

Lemma first_line_prefix (m post : text) :
  NL ∉ m → ∃ b rest, split_lines (m ++ post) = (m ++ b) :: rest.
Proof.
  induction m as [|c m IH]; intros Hn.
  - simpl. destruct (split_lines post) as [|l ls] eqn:E;
      [by apply split_lines_nonempty in E|]. by exists l, ls.
  - destruct IH as (b & rest & IH).
    { intros ?. apply Hn. by apply elem_of_cons; right. }
    simpl. rewrite bool_decide_eq_false_2.
    + rewrite IH. by exists b, rest.
    + intros ->. apply Hn. by apply elem_of_cons; left.
Qed.

(** A piece of text without a newline lies within one line. *)
Lemma line_containing (pre m post : text) :
  NL ∉ m → ∃ line a b, line ∈ split_lines (pre ++ m ++ post) ∧ line = a ++ m ++ b.
Proof.
  intros Hn. induction pre as [|c pre (line & a & b & Hin & ->)].
  - destruct (first_line_prefix m post Hn) as (b & rest & E).
    exists (m ++ b), [], b. simpl. rewrite E. split; [by apply elem_of_cons; left|done].
  - simpl. case_bool_decide.
    + exists (a ++ m ++ b), a, b. split; [by apply elem_of_cons; right|done].
    + destruct (split_lines (pre ++ m ++ post)) as [|l ls]; [by apply elem_of_nil in Hin|].
      apply elem_of_cons in Hin as [<-|Hin].
      * exists (c :: a ++ m ++ b), (c :: a), b. split; [by apply elem_of_cons; left|done].
      * exists (a ++ m ++ b), a, b. split; [by apply elem_of_cons; right|done].
Qed.


Lemma commit_step_grows ticket_id commits line :
  commits ≠ [] → commit_step ticket_id commits line ≠ [].
Proof.
  intros H. unfold commit_step. destruct (contains _ _); [|done].
  destruct (_ && _); [|done]. by destruct commits.
Qed.

Lemma commit_fold_grows ticket_id lines : ∀ commits,
  commits ≠ [] → foldl (commit_step ticket_id) commits lines ≠ [].
Proof.
  induction lines as [|l ls IH]; intros commits H; simpl; [done|].
  by apply IH, commit_step_grows.
Qed.

Lemma commit_step_hit ticket_id commits line x :
  contains (upper ticket_id) (upper line) = true →
  x ∈ line → is_space x = false →
  commit_step ticket_id commits line ≠ [].
Proof.
  intros Hc Hx Hs. unfold commit_step. rewrite Hc.
  assert (strip line ≠ []) as Hne.
  { intros E. pose proof (strip_keeps x line Hx Hs) as Hin. rewrite E in Hin.
    by apply elem_of_nil in Hin. }
  apply truthy_true in Hne. rewrite Hne. simpl. case_bool_decide as Hin; simpl.
  - intros ->. by apply elem_of_nil in Hin.
  - by destruct commits.
Qed.

Lemma commit_fold_hit ticket_id lines line x : ∀ commits,
  line ∈ lines →
  contains (upper ticket_id) (upper line) = true →
  x ∈ line → is_space x = false →
  foldl (commit_step ticket_id) commits lines ≠ [].
Proof.
  induction lines as [|l ls IH]; intros commits Hin Hc Hx Hs; [by apply elem_of_nil in Hin|].
  simpl. apply elem_of_cons in Hin as [<-|Hin].
  - apply commit_fold_grows. by eapply commit_step_hit.
  - by eapply IH.
Qed.

Lemma upper_app a b : upper (a ++ b) = upper a ++ upper b.
Proof. apply fmap_app. Qed.

(** An identifier extracted from the commit log finds at least one
    commit line. *)
Lemma git_commits_nonempty git_log k :
  k ∈ extract_ticket_ids git_log → extract_git_commits_for_ticket git_log k ≠ [].
Proof.
  intros (pre & m & post & -> & -> & Hm & Hchars)%extract_occurrence.
  assert (NL ∉ m) as HNL.
  { intros Hin. apply (all_of_elem _ _ _ Hchars) in Hin.
    by apply ticket_char_plain in Hin as [_ ?]. }
  destruct (line_containing pre m post HNL) as (line & a & b & Hin & ->).
  destruct m as [|x m]; [done|].
  change (extract_git_commits_for_ticket (pre ++ (x :: m) ++ post) (upper (x :: m)))
    with (foldl (commit_step (upper (x :: m))) [] (split_lines (pre ++ (x :: m) ++ post))).
  eapply (commit_fold_hit _ _ _ x); [exact Hin| | |].
  - rewrite upper_idemp, !upper_app. apply contains_spec. by eexists _, _.
  - apply elem_of_app. right. apply elem_of_app. left. by apply elem_of_cons; left.
  - apply Forall_cons in Hchars as [Hx _]. by apply ticket_char_plain in Hx as [? _].
Qed.

(** ** Tracker keys *)



(** C10. An entry without commits, time tracking or a mention in the
    notes carries the key of a tracker record; an identifier extracted
    from the notes, the commit log or the time-tracking text has an
    active entry; and an identifier extracted from the commit log has
    at least one commit line. *)
Theorem C10_mentioned_only_from_tracker (notes : text) (jira_tickets : list jira_ticket)
    (git_log timew_data : text) :
  let c := correlate_ticket_data notes jira_tickets git_log timew_data in
  (∀ k e, c !! k = Some e → is_active e = false →
     ∃ r, r ∈ jira_tickets ∧ jt_key r = Some k) ∧
  (∀ k, k ∈ extract_ticket_ids notes ∪ extract_ticket_ids git_log ∪
            extract_ticket_ids timew_data →
     ∃ e, c !! k = Some e ∧ is_active e = true) ∧
  (∀ k, k ∈ extract_ticket_ids git_log →
     ∃ e, c !! k = Some e ∧ git_commits e ≠ []).
Proof.
  intros c.
  assert (∀ k, k ∈ extract_ticket_ids git_log →
               ∃ e, c !! k = Some e ∧ git_commits e ≠ []) as Hgit.
  { intros k Hk. eexists. unfold c. rewrite correlate_lookup, decide_True by auto.
    split; [done|]. unfold correlated_entry. simpl. rewrite decide_True by done.
    by apply git_commits_nonempty. }
  assert (∀ k, k ∈ extract_ticket_ids notes ∪ extract_ticket_ids git_log ∪
                   extract_ticket_ids timew_data →
               ∃ e, c !! k = Some e ∧ is_active e = true) as Hact.
  { intros k [[Hk|Hk]%elem_of_union|Hk]%elem_of_union.
    - eexists. unfold c. rewrite correlate_lookup, decide_True by auto.
      split; [done|]. unfold correlated_entry, is_active. simpl.
      rewrite (bool_decide_eq_true_2 _ Hk). by rewrite !orb_true_r.
    - destruct (Hgit k Hk) as (e & He & Hc). exists e. split; [done|].
      apply is_active_spec. by left.
    - eexists. unfold c. rewrite correlate_lookup, decide_True by auto.
      split; [done|]. unfold correlated_entry, is_active. simpl.
      rewrite (bool_decide_eq_true_2 _ Hk). by rewrite !orb_true_r. }
  split_and!; [|done|done].
  intros k e Hk Hin.
  assert (¬ (k ∈ extract_ticket_ids notes ∪ extract_ticket_ids git_log ∪
                 extract_ticket_ids timew_data)) as Hnot.
  { intros (e' & He' & Ha)%Hact. congruence. }
  unfold c in Hk. rewrite correlate_lookup in Hk.
  case_decide as Hd; [|done]. clear Hk.
  destruct Hd as [?|[[r Hr]|[?|?]]]; try (exfalso; apply Hnot; set_solver).
  apply tracker_record_Some in Hr as (Hr & Hkey & Hne).
  exists r. split; [done|]. unfold get_key in Hkey. destruct (jt_key r); simpl in *;
    congruence.
Qed.

Lemma C10_witness :
  let record := JiraTicket (Some (str "OPS-7")) None in
  let c := correlate_ticket_data (str "INFRA-1 today") [record]
             (str "abc fix infra-2") (str "INFRA-3 1:00") in
  (∃ r, r ∈ [record] ∧ jt_key r = Some (str "OPS-7")) ∧
  (∃ e, c !! str "INFRA-1" = Some e ∧ is_active e = true) ∧
  (∃ e, c !! str "INFRA-2" = Some e ∧ git_commits e ≠ []).
Proof.
  intros record c.
  pose proof (C10_mentioned_only_from_tracker (str "INFRA-1 today") [record]
                (str "abc fix infra-2") (str "INFRA-3 1:00")) as (H1 & H2 & H3).
  split_and!.
  - apply (H1 (str "OPS-7") (Entry false None None [] false [] None)); by vm_compute.
  - apply H2. by vm_compute.
  - apply H3. by vm_compute.
Defined.

(** ** The aggregation entry points *)








(** A git executable that cannot be started is not handled: the
    exception leaves both entry points. *)
Lemma git_not_found_propagates :
  let w := World (Date 2024 1 2) (λ _, None) (λ _, true)
             (λ _ _, Raised (Exn FileNotFoundError (str "git")))
             (Returned []) in
  aggregate_all_data w aggregator_unconfigured (str "notes") (str "me") [str "repo"]
    None None = Raised (Exn FileNotFoundError (str "git")) ∧
  aggregate_all_data_structured w aggregator_unconfigured (str "notes") (str "me")
    [str "repo"] = Raised (Exn FileNotFoundError (str "git")).
Proof. vm_compute. auto. Qed.

(** ** Where the properties stop *)

(** A bare substring is not a token: followed by one more digit, or
    preceded by one more letter, ABCD-1234 is part of another
    identifier. *)
Example substring_is_not_a_token :
  extract_ticket_ids (str "ABCD-12345 and XABCD-1234") =
  {[ str "ABCD-12345"; str "XABCD-1234" ]} ∧
  has_token (str "ABCD-1234") (str "ABCD-12345 and XABCD-1234") = false.
Proof. vm_compute. auto. Qed.

(** Every identifier found in the time-tracking text marks its entry as
    time-tracked, whatever its letter casing in the text. *)
Lemma time_tracked_set (notes : text) (jira_tickets : list jira_ticket)
    (git_log timew_data : text) (k : text) :
  k ∈ extract_ticket_ids timew_data →
  ∃ e, correlate_ticket_data notes jira_tickets git_log timew_data !! k = Some e ∧
       time_tracked e = true.
Proof.
  intros Hk. eexists. rewrite correlate_lookup, decide_True by auto.
  split; [done|]. unfold correlated_entry. simpl. by apply bool_decide_eq_true_2.
Qed.

(** ** What a match consists of *)

Lemma iter_chars (R : state → state → Prop) (P : ascii → bool) (n0 : nat) :
  (∀ p s p' s', R (p, s) (p', s') →
     ∃ m, s = m ++ s' ∧ all_of P m ∧ n0 ≤ length m) →
  ∀ n a b, iter R n a b →
    ∃ m, a.2 = m ++ b.2 ∧ all_of P m ∧ n * n0 ≤ length m.
Proof.
  intros HR n a b Hit. induction Hit as [a|n [p s] [p1 s1] [p2 s2] H1 Hlt Hit IH].
  - exists []. split_and!; [done|constructor|simpl; lia].
  - apply HR in H1 as (m1 & -> & Hm1 & Hl1). destruct IH as (m2 & IH1 & Hm2 & Hl2).
    simpl in *. subst. exists (m1 ++ m2). rewrite length_app, app_assoc.
    split_and!; [done|by apply Forall_app|lia].
Qed.

(** A match consists of characters that the pattern can consume, and of
    at least [min_len] of them. *)
Lemma M_chars ic r : ∀ p s p' s',
  M ic r (p, s) (p', s') →
  ∃ m, s = m ++ s' ∧ all_of (chars_of ic r) m ∧ min_len r ≤ length m.
Proof.
  induction r as [c|lo hi| | | | |r1 IH1 r2 IH2|r1 IH1 r2 IH2|lo hi r IH|r IH];
    intros p s p' s'; cbn [M chars_of min_len].
  1-4: by intros (x & Hs & Hp & Hok); simpl in *; subst; exists [x];
       split_and!; [done|repeat constructor|simpl; lia].
  - intros [[= <- <-] _]. exists []. split_and!; [done|constructor|simpl; lia].
  - intros [= <- <-]. exists []. split_and!; [done|constructor|simpl; lia].
  - intros ([p1 s1] & H1 & H2). apply IH1 in H1 as (m1 & -> & Hm1 & Hl1).
    apply IH2 in H2 as (m2 & -> & Hm2 & Hl2). exists (m1 ++ m2).
    rewrite length_app, app_assoc. split_and!; [done| |lia].
    apply Forall_app. split.
    + eapply Forall_impl; [exact Hm1|]. intros x Hx. simpl in *. by rewrite Hx.
    + eapply Forall_impl; [exact Hm2|]. intros x Hx. simpl in *. rewrite Hx.
      by rewrite orb_true_r.
  - intros [H|H].
    + apply IH1 in H as (m & -> & Hm & Hl). exists m. split_and!; [done| |lia].
      eapply Forall_impl; [exact Hm|]. intros x Hx. simpl in *. by rewrite Hx.
    + apply IH2 in H as (m & -> & Hm & Hl). exists m. split_and!; [done| |lia].
      eapply Forall_impl; [exact Hm|]. intros x Hx. simpl in *. rewrite Hx.
      by rewrite orb_true_r.
  - intros (n & Hlo & _ & Hit).
    apply (iter_chars _ (chars_of ic r) (min_len r) (IH)) in Hit as (m & Hs & Hm & Hl).
    simpl in *. exists m. split_and!; [done|done|]. nia.
  - apply IH.
Qed.

(** What [search] reports is a match. *)
Lemma search_group ic r t f :
  search ic r t = Some f →
  ∃ pre post, t = pre ++ f_group f ++ post ∧
              all_of (chars_of ic r) (f_group f) ∧ min_len r ≤ length (f_group f).
Proof.
  unfold search. intros H.
  apply (search_found ic r t [] 0) in H as (pre & mm & Hs & _ & Hg & _ & _ & HM & _).
  apply M_chars in HM as (m & E & Hm & Hl). apply app_inv_tail in E as <-.
  exists pre, (f_rest f). by rewrite Hg.
Qed.

(** ** [_extract_git_commits_for_ticket] *)

Lemma commit_fold_spec ticket lines :
  let commits := foldl (commit_step ticket) [] lines in
  NoDup commits ∧
  (∀ c, c ∈ commits ↔
        c ≠ [] ∧ ∃ line, line ∈ lines ∧
                         contains (upper ticket) (upper line) = true ∧ c = strip line) ∧
  sublist commits (strip <$> lines).
Proof.
  induction lines as [|l lines IH] using rev_ind; simpl.
  - split_and!; [constructor| |done].
    intros c. split; [by intros ?%elem_of_nil|].
    by intros (_ & line & ?%elem_of_nil & _).
  - rewrite foldl_app. simpl. destruct IH as (Hnd & Hin & Hsub).
    set (commits := foldl (commit_step ticket) [] lines) in *.
    rewrite fmap_app. simpl. unfold commit_step.
    destruct (contains (upper ticket) (upper l)) eqn:Hc.
    + destruct (truthy (strip l) && negb (bool_decide (strip l ∈ commits))) eqn:Hk.
      * apply andb_true_iff in Hk as [Hne%truthy_true Hnew%negb_true_iff].
        apply bool_decide_eq_false in Hnew. split_and!.
        -- apply NoDup_app. split_and!; [done| |apply NoDup_singleton].
           intros x Hx ->%list_elem_of_singleton. done.
        -- intros c. rewrite elem_of_app, list_elem_of_singleton, Hin. split.
           ++ intros [(Hcne & line & Hl & Hcl & ->)| ->].
              ** split; [done|]. exists line. rewrite elem_of_app. by split_and!; [left| |].
              ** split; [done|]. exists l. rewrite elem_of_app, list_elem_of_singleton.
                 by split_and!; [right| |].
           ++ intros (Hcne & line & [Hl| ->%list_elem_of_singleton]%elem_of_app & Hcl & ->).
              ** left. split; [done|]. by exists line.
              ** by right.
        -- by apply sublist_app.
      * split_and!; [done| |by apply sublist_inserts_r].
        intros c. rewrite Hin. split.
        -- intros (Hcne & line & Hl & Hcl & ->). split; [done|]. exists line.
           rewrite elem_of_app. by split_and!; [left| |].
        -- intros (Hcne & line & [Hl| ->%list_elem_of_singleton]%elem_of_app & Hcl & ->).
           ++ split; [done|]. by exists line.
           ++ apply andb_false_iff in Hk as [Hk|Hk].
              ** by apply truthy_false in Hk.
              ** apply negb_false_iff, bool_decide_eq_true in Hk. by apply Hin in Hk.
    + split_and!; [done| |by apply sublist_inserts_r].
      intros c. rewrite Hin. split.
      * intros (Hcne & line & Hl & Hcl & ->). split; [done|]. exists line.
        rewrite elem_of_app. by split_and!; [left| |].
      * intros (Hcne & line & [Hl| ->%list_elem_of_singleton]%elem_of_app & Hcl & ->).
        -- split; [done|]. by exists line.
        -- congruence.
Qed.

(** The commits collected for a ticket are the stripped, non-empty log
    lines that contain the identifier in any letter casing, each once, in
    the order of the log. *)
Theorem git_commits_for_ticket_spec git_log ticket_id :
  let commits := extract_git_commits_for_ticket git_log ticket_id in
  NoDup commits ∧
  (∀ c, c ∈ commits ↔
        c ≠ [] ∧ ∃ line, line ∈ split_lines git_log ∧
                         contains (upper ticket_id) (upper line) = true ∧
                         c = strip line) ∧
  sublist commits (strip <$> split_lines git_log).
Proof. apply commit_fold_spec. Qed.

(** ** [_extract_time_duration] *)

Lemma first_some_Some {A B} (f : A → option B) l y :
  first_some f l = Some y → ∃ x, x ∈ l ∧ f x = Some y.
Proof.
  induction l as [|x l IH]; simpl; [done|].
  destruct (f x) as [y'|] eqn:E.
  - intros [= ->]. exists x. split; [by left|done].
  - intros (x' & Hx' & Hy)%IH. exists x'. split; [by right|done].
Qed.

Lemma first_some_None {A B} (f : A → option B) l :
  first_some f l = None ↔ ∀ x, x ∈ l → f x = None.
Proof.
  induction l as [|x l IH]; simpl.
  - split; [by intros _ x ?%elem_of_nil|done].
  - destruct (f x) as [y'|] eqn:E.
    + split; [done|]. intros H. rewrite <- E. apply H. by left.
    + rewrite IH. split.
      * intros H x' [->|Hx']%elem_of_cons; [done|by apply H].
      * intros H x' Hx'. apply H. by right.
Qed.

Lemma elem_of_range a b i : i ∈ range a b ↔ a ≤ i < b.
Proof. unfold range. rewrite elem_of_seq. lia. Qed.

Lemma chars_of_duration x :
  chars_of false pat_duration x = true → is_duration_char x = true.
Proof.
  unfold is_duration_char. cbn. unfold lit_ok.
  destruct (is_digit x); simpl; [done|].
  destruct (bool_decide (x = ":"%char)); done.
Qed.

(** No duration is reported for an identifier that no line of the
    timewarrior text contains, in the casing given. *)
Theorem time_duration_needs_mention timew_data ticket_id :
  (∀ line, line ∈ split_lines timew_data → contains ticket_id line = false) →
  extract_time_duration timew_data ticket_id = None.
Proof.
  intros Hno. unfold extract_time_duration. apply first_some_None.
  intros i _. destruct (split_lines timew_data !! i) as [line|] eqn:E; [|done].
  rewrite Hno; [done|]. by eapply list_elem_of_lookup_2.
Qed.

(** A reported duration is read in a line that is a line containing the
    identifier, or the line just before or just after one; it is a piece
    of that line made of digits and colons. *)
Theorem time_duration_sound timew_data ticket_id d :
  extract_time_duration timew_data ticket_id = Some d →
  ∃ i j line l pre post,
    split_lines timew_data !! i = Some line ∧ contains ticket_id line = true ∧
    split_lines timew_data !! j = Some l ∧ i ≤ j + 1 ∧ j ≤ i + 1 ∧
    l = pre ++ d ++ post ∧ all_of is_duration_char d ∧ 3 ≤ length d.
Proof.
  unfold extract_time_duration.
  intros (i & Hi & H)%first_some_Some.
  destruct (split_lines timew_data !! i) as [line|] eqn:Eline; [|done].
  destruct (contains ticket_id line) eqn:Hc; [|done].
  apply first_some_Some in H as (j & Hj%elem_of_range & H).
  destruct (split_lines timew_data !! j) as [l|] eqn:El; [|done].
  destruct (search false pat_duration l) as [f|] eqn:Ef; [|done].
  injection H as <-.
  apply search_group in Ef as (pre & post & Hl & Hch & Hlen).
  exists i, j, line, l, pre, post. split_and!; try done; try lia.
  eapply Forall_impl; [exact Hch|]. intros x. apply chars_of_duration.
Qed.

(** ** [extract_ticket_ids], both directions *)

Lemma lower_upper s : lower (upper s) = lower s.
Proof.
  induction s as [|x s IH]; [done|]. unfold lower, upper in *. simpl. f_equal; [|done].
  clear. by_cases_on_char x.
Qed.

Lemma findall_mention pat m t :
  pat ∈ TICKET_PATTERNS → m ∈ findall true pat t → mention m t.
Proof.
  intros Hpat (pre & post & p' & -> & HM)%findall_sound. exists pre, post.
  unfold TICKET_PATTERNS in Hpat.
  apply elem_of_cons in Hpat as [->|Hpat];
    [|apply elem_of_cons in Hpat as [->|Hpat]; [|by apply elem_of_nil in Hpat]].
  - apply pat_standard_M in HM as (m' & E & -> & Hsh & Hb1 & Hb2).
    apply app_inv_tail in E as <-.
    destruct (shape_standard_ends m (last pre) Hsh) as [(a & Ha & Halpha) (d & Hd & Hdigit)].
    split_and!; [done|by left| |].
    + destruct m as [|a' m]; [done|]. injection Ha as ->.
      by eapply boundary_before_alpha.
    + rewrite Hd in Hb2. by eapply boundary_after_digit.
  - apply pat_compact_M in HM as (m' & E & -> & Hsh & Hb1 & Hb2).
    apply app_inv_tail in E as <-.
    destruct (shape_compact_ends m (last pre) Hsh) as [(a & Ha & Halpha) (d & Hd & Hdigit)].
    split_and!; [done|by right| |].
    + destruct m as [|a' m]; [done|]. injection Ha as ->.
      by eapply boundary_before_alpha.
    + rewrite Hd in Hb2. by eapply boundary_after_digit.
Qed.

Lemma extract_mention_iff x t :
  x ∈ extract_ticket_ids t ↔ ∃ m, mention m t ∧ x = upper m.
Proof.
  split.
  - intros (pat & m & Hpat & Hm & ->)%elem_of_extract_ticket_ids.
    exists m. split; [|done]. by eapply findall_mention.
  - intros (m & (pre & post & -> & Hsh & Hpre & Hpost) & ->).
    apply elem_of_extract_ticket_ids. destruct Hsh as [Hsh|Hsh].
    + exists pat_standard, m. split_and!; [apply elem_of_cons; by left| |done].
      by apply standard_token_found.
    + exists pat_compact, m. split_and!; [|by apply compact_token_found|done].
      apply elem_of_cons. right. apply elem_of_cons. by left.
Qed.

(** The identifiers extracted from a text are exactly the upper-cased
    mentions of the text. *)
Theorem extract_ticket_ids_exact x t :
  x ∈ extract_ticket_ids t ↔ ∃ m, mention m t ∧ x = upper m.
Proof. apply extract_mention_iff. Qed.

(** ** [_extract_context] *)

Lemma lstrip_length s : length (lstrip s) ≤ length s.
Proof. induction s as [|c s IH]; simpl; [done|]. destruct (is_space c); simpl; lia. Qed.

Lemma strip_length s : length (strip s) ≤ length s.
Proof.
  unfold strip, rstrip. rewrite length_reverse.
  etrans; [apply lstrip_length|]. rewrite length_reverse. apply lstrip_length.
Qed.

Lemma lstrip_app_keep (a m b : text) x :
  head m = Some x → is_space x = false →
  ∃ a', lstrip (a ++ m ++ b) = a' ++ m ++ b.
Proof.
  intros Hh Hx. induction a as [|c a IH]; simpl.
  - exists []. destruct m as [|y m]; [done|]. injection Hh as ->. simpl. by rewrite Hx.
  - destruct (is_space c); [done|]. by exists (c :: a).
Qed.

Lemma strip_app_keep (a m b : text) x y :
  head m = Some x → is_space x = false → last m = Some y → is_space y = false →
  ∃ a' b', strip (a ++ m ++ b) = a' ++ m ++ b'.
Proof.
  intros Hh Hx Hl Hy. unfold strip, rstrip.
  destruct (lstrip_app_keep a m b x Hh Hx) as [a' ->].
  rewrite !reverse_app.
  destruct (lstrip_app_keep (reverse b) (reverse m) (reverse a') y) as [b' Hb'];
    [by rewrite head_reverse|done|].
  rewrite <- app_assoc, Hb', !reverse_app, !reverse_involutive.
  exists a', (reverse b'). by rewrite <- app_assoc.
Qed.

(** The excerpt is bounded: the identifier, [context_size] characters on
    each side, and the two ellipses. *)
Theorem extract_context_bounded t ticket_id context_size :
  length (extract_context t ticket_id context_size) ≤
  length ticket_id + 2 * context_size + 6.
Proof.
  unfold extract_context. fold (context_pattern ticket_id). unfold search.
  pose proof (search_occurrence ticket_id t 0 []) as H. simpl in H.
  destruct (search_at true (context_pattern ticket_id) 0 None t) as [f|]; [|simpl; lia].
  destruct H as (_ & _ & Hlen). cbv zeta.
  set (start := Z.max 0 _). set (stop := Z.min _ _).
  assert (length (strip (slice start stop t)) ≤ length ticket_id + 2 * context_size) as Hs.
  { etrans; [apply strip_length|]. unfold slice. rewrite length_take.
    unfold start, stop, f_end. lia. }
  destruct (0 <? start)%Z, (stop <? Z.of_nat (length t))%Z;
    rewrite ?length_app; change (length ELLIPSIS) with 3; lia.
Qed.

Lemma slice_covers (pre mm rest : text) (start stop : Z) :
  (0 ≤ start ≤ Z.of_nat (length pre))%Z →
  (Z.of_nat (length pre + length mm) ≤ stop)%Z →
  ∃ a b, slice start stop (pre ++ mm ++ rest) = a ++ mm ++ b.
Proof.
  intros H1 H2. unfold slice.
  rewrite drop_app_le by lia.
  exists (drop (Z.to_nat start) pre).
  rewrite take_app_ge by (rewrite length_drop; lia).
  rewrite take_app_ge by (rewrite length_drop; lia).
  eexists. done.
Qed.

Lemma mention_ends m t :
  mention m t →
  ∃ a d, head m = Some a ∧ is_word a = true ∧ last m = Some d ∧ is_word d = true.
Proof.
  intros (pre & post & _ & Hsh & _ & _).
  assert ((∃ a, head m = Some a ∧ is_alpha a = true) ∧
          (∃ d, lastp None m = Some d ∧ is_digit d = true)) as [(a & Ha & Ha') (d & Hd & Hd')].
  { destruct Hsh; [by apply shape_standard_ends|by apply shape_compact_ends]. }
  exists a, d. split_and!; [done|by apply alpha_word| |by apply digit_word].
  unfold lastp in Hd. by destruct (last m).
Qed.

Lemma mention_occurs m t :
  mention m t → is_Some (search true (context_pattern (upper m)) t).
Proof.
  intros Hm. destruct (mention_ends m t Hm) as (a & d & Ha & Haw & Hd & Hdw).
  destruct Hm as (pre & post & -> & _ & Hpre & Hpost).
  unfold search.
  destruct (search_at true (context_pattern (upper m)) 0 None (pre ++ m ++ post))
    as [f|] eqn:E; [done|].
  exfalso. pose proof (search_at_none true _ _ 0 [] E) as E'.
  apply (E' pre (m ++ post) eq_refl (lastp (last pre) m, post)). simpl.
  apply context_pattern_M. exists m. split_and!; [done|done|by rewrite lower_upper| |].
  - unfold at_boundary. rewrite Hpre. destruct m as [|a' m]; [done|].
    injection Ha as ->. simpl. by rewrite Haw.
  - unfold at_boundary, lastp. rewrite Hd, Hpost. simpl. by rewrite Hdw.
Qed.

Lemma ci_head_not_space (mm m0 : text) a :
  lower mm = lower m0 → head m0 = Some a → is_word a = true →
  ∃ x, head mm = Some x ∧ is_space x = false.
Proof.
  intros Hci Ha Hw. destruct m0 as [|a' m0]; [done|]. injection Ha as ->.
  destruct mm as [|x mm]; [done|]. rewrite !lower_cons in Hci.
  injection Hci as Hx _. exists x. split; [done|].
  rewrite <- lower_space, Hx, lower_space. by apply word_not_space.
Qed.

Lemma context_shows_mention t x context_size :
  x ∈ extract_ticket_ids t →
  ∃ a m b, extract_context t x context_size = a ++ m ++ b ∧ upper m = x.
Proof.
  intros (m0 & Hm0 & ->)%extract_mention_iff.
  destruct (mention_ends m0 t Hm0) as (a0 & d0 & Ha0 & Haw & Hd0 & Hdw).
  destruct (mention_occurs m0 t Hm0) as [f Hf].
  unfold extract_context. fold (context_pattern (upper m0)). rewrite Hf.
  pose proof (search_occurrence (upper m0) t 0 []) as Ho. simpl in Ho.
  unfold search in Hf. rewrite Hf in Ho. destruct Ho as (_ & _ & Hlen).
  apply (search_found _ _ _ [] 0) in Hf
    as (pre & mm & Ht & _ & _ & Hsk & _ & HM & _).
  simpl in HM, Hsk.
  apply context_pattern_M in HM as (mm' & E & _ & Hci & _ & _).
  apply app_inv_tail in E as <-. rewrite lower_upper in Hci.
  destruct (ci_head_not_space mm m0 a0 Hci Ha0 Haw) as (x & Hx & Hxs).
  destruct (ci_head_not_space (reverse mm) (reverse m0) d0) as (y & Hy & Hys);
    [unfold lower in Hci |- *; by rewrite !fmap_reverse, Hci|by rewrite head_reverse|done|].
  rewrite head_reverse in Hy.
  cbv zeta. set (start := Z.max 0 _). set (stop := Z.min _ _).
  pose proof (lower_same_length _ _ Hci) as Hl.
  assert (length (upper m0) = length m0) as Hul by apply length_fmap.
  destruct (slice_covers pre mm (f_rest f) start stop) as (a & b & Hsl).
  { unfold start. lia. }
  { assert (length t = length pre + (length mm + length (f_rest f))) as Hlt
      by by rewrite Ht at 1; rewrite !length_app.
    unfold stop, f_end. lia. }
  rewrite <- Ht in Hsl. rewrite Hsl.
  destruct (strip_app_keep a mm b x y Hx Hxs Hy Hys) as (a' & b' & ->).
  assert (upper mm = upper m0) as Hup by by apply same_ci_upper.
  destruct (0 <? start)%Z, (stop <? Z.of_nat (length t))%Z.
  - exists (ELLIPSIS ++ a'), mm, (b' ++ ELLIPSIS). by rewrite <- !app_assoc.
  - exists (ELLIPSIS ++ a'), mm, b'. by rewrite <- !app_assoc.
  - exists a', mm, (b' ++ ELLIPSIS). by rewrite <- !app_assoc.
  - by exists a', mm, b'.
Qed.

(** For an identifier extracted from a text, the excerpt is not empty: it
    shows a mention of that identifier. *)
Theorem extract_context_of_extracted t x context_size :
  x ∈ extract_ticket_ids t →
  ∃ a m b, extract_context t x context_size = a ++ m ++ b ∧ m ≠ [] ∧ upper m = x.
Proof.
  intros Hx. destruct (context_shows_mention t x context_size Hx) as (a & m & b & Hc & Hm).
  exists a, m, b. split_and!; [done| |done].
  intros ->. simpl in Hm. subst x. apply extract_mention_iff in Hx as (m0 & Hm0 & E).
  destruct (mention_ends m0 t Hm0) as (a0 & _ & Ha0 & _). by destruct m0.
Qed.

(** ** [correlate_ticket_data] *)

Lemma tracker_record_iff k jira_tickets :
  is_Some (tracker_record k jira_tickets) ↔
  k ≠ [] ∧ ∃ r, r ∈ jira_tickets ∧ get_key r = k.
Proof.
  split.
  - intros [r (Hr & Hk & Hne)%tracker_record_Some]. split; [done|]. by exists r.
  - intros (Hne & r & Hr & Hk). by eapply tracker_record_is_Some.
Qed.

(** The keys of the correlated mapping are the identifiers extracted
    from the notes, the commit log and the time-tracking text, and the
    non-empty keys of the tracker records, and nothing else. *)
Theorem correlate_keys (notes : text) (jira_tickets : list jira_ticket)
    (git_log timew_data : text) :
  dom (correlate_ticket_data notes jira_tickets git_log timew_data) =
  extract_ticket_ids notes ∪
  list_to_set (filter (λ k, k ≠ []) (get_key <$> jira_tickets)) ∪
  extract_ticket_ids git_log ∪ extract_ticket_ids timew_data.
Proof.
  apply set_eq. intros k.
  rewrite elem_of_dom, correlate_lookup, !elem_of_union, elem_of_list_to_set,
    list_elem_of_filter, list_elem_of_fmap.
  case_decide as Hk.
  - split; [intros _|by eauto].
    destruct Hk as [Hk|[Hk|[Hk|Hk]]]; [by left; left; left| |by left; right|by right].
    apply tracker_record_iff in Hk as (Hne & r & Hr & Hkr).
    left. left. right. split; [done|]. by exists r.
  - split; [by intros [? ?]|]. intros HH. exfalso. apply Hk.
    destruct HH as [[[HH|(Hne & r & Hkr & Hr)]|HH]|HH]; [by left| |by right; right; left|by right; right; right].
    right. left. apply tracker_record_iff. split; [done|]. by exists r.
Qed.

(** What an entry of the correlated mapping says about the three texts
    is exact: it is marked as mentioned exactly when the notes mention
    its key, as time-tracked exactly when the time-tracking text does,
    and it has commits exactly when the commit log does; it has a duration
    only if it is time-tracked. *)
Theorem correlate_evidence_exact (notes : text) (jira_tickets : list jira_ticket)
    (git_log timew_data : text) (k : text) (e : entry) :
  correlate_ticket_data notes jira_tickets git_log timew_data !! k = Some e →
  (mentioned_in_notes e = true ↔ k ∈ extract_ticket_ids notes) ∧
  (time_tracked e = true ↔ k ∈ extract_ticket_ids timew_data) ∧
  (git_commits e ≠ [] ↔ k ∈ extract_ticket_ids git_log) ∧
  (git_commits e = if decide (k ∈ extract_ticket_ids git_log)
                   then extract_git_commits_for_ticket git_log k else []) ∧
  (is_Some (time_duration e) → time_tracked e = true).
Proof.
  rewrite correlate_lookup. case_decide as Hk; [|done]. intros [= <-].
  unfold correlated_entry. simpl. rewrite !bool_decide_eq_true. split_and!; try done.
  - case_decide as Hg; [|done]. split; [done|]. intros _. by apply git_commits_nonempty.
  - case_decide; [done|]. by intros [? ?].
Qed.

(** An entry has at most one excerpt: the one of the notes, present and
    not empty exactly when the notes mention its key. *)
Theorem correlate_contexts (notes : text) (jira_tickets : list jira_ticket)
    (git_log timew_data : text) (k : text) (e : entry) :
  correlate_ticket_data notes jira_tickets git_log timew_data !! k = Some e →
  (k ∈ extract_ticket_ids notes →
   contexts e = [(str "notes", extract_context notes k 100)] ∧
   extract_context notes k 100 ≠ []) ∧
  (k ∉ extract_ticket_ids notes → contexts e = []).
Proof.
  rewrite correlate_lookup. case_decide as Hk; [|done]. intros [= <-].
  unfold correlated_entry. simpl. split.
  - intros HN. rewrite decide_True by done.
    destruct (context_shows_mention notes k 100 HN) as (a & m & b & Hc & Hm).
    assert (extract_context notes k 100 ≠ []) as Hne.
    { rewrite Hc. intros E. apply app_eq_nil in E as [_ E].
      apply app_eq_nil in E as [-> _].
      apply extract_mention_iff in HN as (m0 & Hm0 & ->).
      destruct (mention_ends m0 notes Hm0) as (a0 & _ & Ha0 & _).
      destruct m0; done. }
    split; [|done]. apply truthy_true in Hne. by rewrite Hne.
  - intros HN. by rewrite decide_False.
Qed.

(** ** [normalize_ticket_references] *)

Lemma sub_fn_fixed ic r (repl : text → text) :
  (∀ m, all_of (chars_of ic r) m → repl m = m) →
  ∀ fuel pre0 s, sub_fn_from fuel ic r repl (last pre0) s = s.
Proof.
  intros Hrepl. induction fuel as [|fuel IH]; intros pre0 s; simpl; [done|].
  destruct (search_at ic r 0 (last pre0) s) as [f|] eqn:E; [|done].
  apply search_found in E as (pre & mm & Hs & Hfrom & Hg & Hsk & Hprev & HM & _).
  apply M_chars in HM as (m & Em & Hm & _). apply app_inv_tail in Em as <-.
  rewrite Hg, (Hrepl _ Hm), Hsk, Hprev. simpl.
  assert (take (length pre) s = pre) as -> by by rewrite Hs, take_app_length.
  etrans; [|symmetry; exact Hs]. f_equal. f_equal.
  destruct (length (f_rest f) <? length (f_from f)); [apply IH|].
  destruct (f_rest f) as [|x s']; [done|]. f_equal.
  apply (IH [x]).
Qed.

Lemma ticket_pattern_chars_upper pat x :
  pat ∈ TICKET_PATTERNS → chars_of false pat x = true → upper_char x = x.
Proof.
  unfold TICKET_PATTERNS. intros Hpat.
  apply elem_of_cons in Hpat as [->|Hpat];
    [|apply elem_of_cons in Hpat as [->|Hpat]; [|by apply elem_of_nil in Hpat]].
  - clear. by_cases_on_char x.
  - clear. by_cases_on_char x.
Qed.

(** [normalize_ticket_references] changes nothing: its patterns are applied
    without the ignore-case flag, so what they match is in upper case
    already. *)
Theorem normalize_ticket_references_identity (t : text) :
  normalize_ticket_references t = t.
Proof.
  unfold normalize_ticket_references.
  assert (∀ pats t, (∀ pat, pat ∈ pats → pat ∈ TICKET_PATTERNS) →
            foldl (λ t pattern, re_sub_fn false pattern upper t) t pats = t) as Hfold.
  { induction pats as [|pat pats IH]; intros t' Hin; simpl; [done|].
    assert (re_sub_fn false pat upper t' = t') as ->.
    { unfold re_sub_fn. apply (sub_fn_fixed false pat upper) with (pre0 := []).
      intros m Hm. unfold upper. induction Hm as [|x m Hx _ IHm]; [done|].
      simpl. f_equal; [|done].
      apply (ticket_pattern_chars_upper pat); [|done]. apply Hin. by left. }
    apply IH. intros pat' ?. apply Hin. by right. }
  by apply Hfold.
Qed.

(** ** [_clean_notes] *)

Lemma lstrip_suffix s : ∃ w, s = w ++ lstrip s ∧ all_of is_space w.
Proof.
  induction s as [|c s (w & Hw & Hsp)]; simpl.
  - exists []. split; [done|constructor].
  - destruct (is_space c) eqn:Hc.
    + exists (c :: w). split; [by rewrite Hw at 1|by constructor].
    + exists []. split; [done|constructor].
Qed.

Lemma lstrip_head s x : head (lstrip s) = Some x → is_space x = false.
Proof.
  induction s as [|c s IH]; simpl; [done|].
  destruct (is_space c) eqn:Hc; [done|]. simpl. by intros [= <-].
Qed.

Lemma lstrip_fixed s : (∀ x, head s = Some x → is_space x = false) → lstrip s = s.
Proof. destruct s as [|c s]; simpl; [done|]. intros H. by rewrite (H c). Qed.

Lemma rstrip_prefix s : ∃ w, s = rstrip s ++ w ∧ all_of is_space w.
Proof.
  unfold rstrip. destruct (lstrip_suffix (reverse s)) as (w & Hw & Hsp).
  exists (reverse w). split.
  - rewrite <- reverse_app, <- Hw. by rewrite reverse_involutive.
  - by apply Forall_reverse.
Qed.

Lemma rstrip_last s x : last (rstrip s) = Some x → is_space x = false.
Proof. unfold rstrip. rewrite last_reverse. apply lstrip_head. Qed.

Lemma rstrip_fixed s : (∀ x, last s = Some x → is_space x = false) → rstrip s = s.
Proof.
  intros H. unfold rstrip. rewrite lstrip_fixed; [by rewrite reverse_involutive|].
  intros x. rewrite head_reverse. apply H.
Qed.

Lemma strip_ends s :
  (∀ x, head (strip s) = Some x → is_space x = false) ∧
  (∀ x, last (strip s) = Some x → is_space x = false).
Proof.
  split; [|apply rstrip_last]. unfold strip. intros x Hx.
  destruct (rstrip_prefix (lstrip s)) as (w & Hw & _).
  apply (lstrip_head s x). rewrite Hw.
  destruct (rstrip (lstrip s)); [done|]. done.
Qed.

Lemma strip_fixed s :
  (∀ x, head s = Some x → is_space x = false) →
  (∀ x, last s = Some x → is_space x = false) → strip s = s.
Proof. intros H1 H2. unfold strip. rewrite lstrip_fixed by done. by apply rstrip_fixed. Qed.

Lemma strip_idemp s : strip (strip s) = strip s.
Proof. apply strip_fixed; apply strip_ends. Qed.

Lemma strip_elem_of s x : x ∈ strip s → x ∈ s.
Proof.
  unfold strip. intros Hx.
  destruct (rstrip_prefix (lstrip s)) as (w & Hw & _).
  destruct (lstrip_suffix s) as (w' & Hw' & _).
  rewrite Hw', Hw, !elem_of_app. auto.
Qed.

Lemma clean_fold lines : ∀ acc,
  foldl (λ cleaned line,
           let line := strip line in
           if truthy line then cleaned ++ [line] else cleaned) acc lines =
  acc ++ filter (λ l, l ≠ []) (strip <$> lines).
Proof.
  induction lines as [|l lines IH]; intros acc; simpl; [by rewrite app_nil_r|].
  rewrite IH. destruct (strip l) as [|c r] eqn:E; simpl.
  - by rewrite filter_cons_False by naive_solver.
  - rewrite filter_cons_True by done. by rewrite <- app_assoc.
Qed.

(** The cleaned notes have no blank line, and none of their lines begins
    or ends with white space. *)
Theorem clean_notes_lines (notes : text) :
  clean_notes notes = [] ∨
  Forall (λ l, l ≠ [] ∧ strip l = l) (split_lines (clean_notes notes)).
Proof.
  unfold clean_notes. cbv zeta. rewrite (clean_fold _ []). simpl.
  set (lines := split_lines _).
  set (cleaned := filter (λ l, l ≠ []) (strip <$> lines)).
  assert (Forall (λ l, l ≠ [] ∧ strip l = l ∧ NL ∉ l) cleaned) as Hc.
  { apply Forall_forall. intros l [Hne (l0 & -> & Hl0)%list_elem_of_fmap]%list_elem_of_filter.
    split_and!; [done|apply strip_idemp|].
    intros Hin%strip_elem_of.
    pose proof (split_lines_no_NL (re_sub false pat_spaces (str " ")
      (re_sub false pat_newlines [NL; NL] (re_sub false pat_timestamp [] notes)))) as Hno.
    rewrite Forall_forall in Hno. by apply (Hno l0). }
  destruct cleaned as [|c cs] eqn:E; [by left|]. right.
  rewrite split_join; [|done|].
  - eapply Forall_impl; [exact Hc|]. by intros l (? & ? & ?).
  - eapply Forall_impl; [exact Hc|]. by intros l (? & ? & ?).
Qed.

(** ** [deduplicate_content], continued *)

Lemma join_lines_cons l ls :
  ls ≠ [] → join_lines (l :: ls) = l ++ NL :: join_lines ls.
Proof. by destruct ls. Qed.

Lemma join_lines_app ls1 ls2 :
  ls1 ≠ [] → ls2 ≠ [] →
  join_lines (ls1 ++ ls2) = join_lines ls1 ++ NL :: join_lines ls2.
Proof.
  induction ls1 as [|l ls1 IH]; [done|]. intros _ H2.
  destruct ls1 as [|l' ls1].
  - simpl (_ ++ _). by rewrite join_lines_cons.
  - change ((l :: l' :: ls1) ++ ls2) with (l :: ((l' :: ls1) ++ ls2)).
    rewrite !join_lines_cons by done. rewrite IH by done. by rewrite <- app_assoc.
Qed.

Lemma join_lines_length_sublist (l1 l2 : list text) :
  sublist l1 l2 → length (join_lines l1) ≤ length (join_lines l2).
Proof.
  induction 1 as [|x l1 l2 Hsub IH|x l1 l2 Hsub IH]; [simpl; lia| |].
  - destruct l1 as [|y l1].
    + destruct l2 as [|z l2]; [simpl; lia|]. rewrite (join_lines_cons x (z :: l2)) by done.
      simpl. rewrite length_app. lia.
    + destruct l2 as [|z l2]; [by apply sublist_nil_r in Hsub|].
      rewrite (join_lines_cons x (y :: l1)), (join_lines_cons x (z :: l2)) by done.
      rewrite !length_app. simpl in *. lia.
  - destruct l2 as [|z l2].
    + apply sublist_nil_r in Hsub as ->. simpl. lia.
    + rewrite (join_lines_cons x (z :: l2)) by done. rewrite length_app. simpl in *. lia.
Qed.

(** The result of [deduplicate_content] is never longer than its input. *)
Theorem deduplicate_content_shorter (t : text) :
  length (deduplicate_content t) ≤ length t.
Proof.
  rewrite deduplicate_content_kept. rewrite <- (join_split t) at 2.
  apply join_lines_length_sublist, kept_lines_sublist.
Qed.

(** A text whose lines are not blank and differ pairwise, also after
    trimming and lower-casing, is left as it is. *)
Theorem deduplicate_content_fixed (t : text) :
  NoDup (line_key <$> split_lines t) →
  (∀ l, l ∈ split_lines t → line_key l ≠ []) →
  deduplicate_content t = t.
Proof.
  intros Hnd Hne. rewrite deduplicate_content_kept, kept_lines_fixed; [apply join_split|done|].
  intros l Hl. split; [by apply Hne|apply not_elem_of_empty].
Qed.

Lemma deduplicate_content_fixed_witness :
  let t := str "fix INFRA-1" ++ [NL] ++ str "review INFRA-2" in
  deduplicate_content t = t.
Proof.
  intros t. apply (deduplicate_content_fixed t).
  - apply (bool_decide_unpack _). by vm_compute.
  - apply Forall_forall. apply (bool_decide_unpack _). by vm_compute.
Defined.

(** ** [structure_for_ai] *)

Lemma run_of_refl {A} (b : list A) : run_of b b.
Proof. exists [], []. by rewrite app_nil_r. Qed.

Lemma run_of_app_l {A} (b l1 l2 : list A) : run_of b l1 → run_of b (l1 ++ l2).
Proof. intros (a & c & ->). exists a, (c ++ l2). by rewrite <- !app_assoc. Qed.

Lemma run_of_app_r {A} (b l1 l2 : list A) : run_of b l2 → run_of b (l1 ++ l2).
Proof. intros (a & c & ->). exists (l1 ++ a), c. by rewrite <- !app_assoc. Qed.

Lemma run_of_elem {A} (x : A) ls : x ∈ ls → run_of [x] ls.
Proof. intros (a & c & ->)%list_elem_of_split. by exists a, c. Qed.

Lemma run_of_concat {A} (b : list A) (ls : list (list A)) : b ∈ ls → run_of b (concat ls).
Proof.
  intros (a & c & ->)%list_elem_of_split. rewrite concat_app, concat_cons.
  by exists (concat a), (concat c).
Qed.

Lemma contains_join_run (b ls : list text) :
  run_of b ls → contains (join_lines b) (join_lines ls) = true.
Proof.
  intros (a & c & ->). apply contains_spec.
  destruct b as [|l b]; [by exists [], (join_lines (a ++ [] ++ c))|].
  destruct a as [|la a], c as [|lc c].
  - exists [], []. by rewrite !app_nil_r.
  - exists [], (NL :: join_lines (lc :: c)).
    rewrite (app_nil_l ((l :: b) ++ lc :: c)).
    by rewrite (join_lines_app (l :: b) (lc :: c)).
  - exists (join_lines (la :: a) ++ [NL]), []. rewrite !app_nil_r.
    rewrite (join_lines_app (la :: a) (l :: b)) by done. by rewrite <- app_assoc.
  - exists (join_lines (la :: a) ++ [NL]), (NL :: join_lines (lc :: c)).
    rewrite (join_lines_app (la :: a) ((l :: b) ++ lc :: c)) by done.
    rewrite (join_lines_app (l :: b) (lc :: c)) by done. by rewrite <- app_assoc.
Qed.

Lemma elem_of_sorted_items x l : x ∈ sorted_items l ↔ x ∈ l.
Proof. unfold sorted_items. by rewrite merge_sort_Permutation. Qed.

Lemma contains_join_elem (x : text) ls : x ∈ ls → contains x (join_lines ls) = true.
Proof. intros H. apply (contains_join_run [x]). by apply run_of_elem. Qed.

(** Every ticket of the correlated mapping is shown in the document,
    under the section header: an active one with its block under
    ACTIVELY WORKED ON, another one with its line under ALSO TRACKING. *)
Theorem structure_for_ai_shows_tickets (c : gmap text entry) (notes : text)
    (date_range : datetime * datetime) (k : text) (e : entry) :
  c !! k = Some e →
  let doc := structure_for_ai c notes date_range in
  contains (str "=== TICKET WORK ===") doc = true ∧
  (if is_active e
   then contains (str "ACTIVELY WORKED ON:") doc = true ∧
        contains (join_lines (active_block (k, e))) doc = true
   else contains (NL :: str "ALSO TRACKING:") doc = true ∧
        contains (mentioned_line (k, e)) doc = true).
Proof.
  intros Hk doc. subst doc. destruct date_range as [start_date end_date].
  unfold structure_for_ai.
  assert (c ≠ ∅) as Hne by (intros ->; by rewrite lookup_empty in Hk).
  rewrite (bool_decide_eq_true_2 _ Hne).
  pose proof (partition_spec c) as (Ha & Hm & _).
  destruct (partition_tickets c) as [act men]. simpl in Ha, Hm.
  cbv zeta.
  set (T := if bool_decide (start_date ≠ end_date) then _ else _). clearbody T.
  destruct (is_active e) eqn:Hact.
  - assert ((k, e) ∈ act) as Hin by by apply Ha.
    assert (truthy act = true) as -> by (apply truthy_true; by intros ->; apply elem_of_nil in Hin).
    assert (run_of (active_block (k, e)) (concat (active_block <$> sorted_items act))) as Hrun.
    { apply run_of_concat, list_elem_of_fmap. exists (k, e). split; [done|].
      by apply elem_of_sorted_items. }
    assert (run_of [str "=== TICKET WORK ==="] [str "=== TICKET WORK ==="]) as H1
      by apply run_of_refl.
    assert (run_of [str "ACTIVELY WORKED ON:"] [str "ACTIVELY WORKED ON:"]) as H2
      by apply run_of_refl.
    destruct (truthy men); split_and!;
      lazymatch goal with
      | |- contains (join_lines ?b) _ = _ => apply (contains_join_run b)
      | |- contains ?x _ = _ => apply (contains_join_run [x])
      end;
      eauto 12 using run_of_app_l, run_of_app_r.
  - assert ((k, e) ∈ men) as Hin by by apply Hm.
    assert (truthy men = true) as -> by (apply truthy_true; by intros ->; apply elem_of_nil in Hin).
    assert (run_of [mentioned_line (k, e)] (mentioned_line <$> sorted_items men)) as Hrun.
    { apply run_of_elem, list_elem_of_fmap. exists (k, e). split; [done|].
      by apply elem_of_sorted_items. }
    assert (run_of [str "=== TICKET WORK ==="] [str "=== TICKET WORK ==="]) as H1
      by apply run_of_refl.
    assert (run_of [NL :: str "ALSO TRACKING:"] [NL :: str "ALSO TRACKING:"]) as H2
      by apply run_of_refl.
    destruct (truthy act); split_and!; apply (contains_join_run [_]);
      eauto 12 using run_of_app_l, run_of_app_r.
Qed.

Lemma structure_for_ai_shows_tickets_witness :
  let c : gmap text entry := {[ str "INFRA-7" := default_entry ]} in
  let doc := structure_for_ai c [] example_range in
  c !! str "INFRA-7" = Some default_entry ∧
  contains (str "=== TICKET WORK ===") doc = true ∧
  contains (NL :: str "ALSO TRACKING:") doc = true ∧
  contains (mentioned_line (str "INFRA-7", default_entry)) doc = true.
Proof.
  intros c doc. split; [by vm_compute|].
  apply (structure_for_ai_shows_tickets c [] example_range (str "INFRA-7") default_entry).
  by vm_compute.
Defined.

(** ** [get_git_history] *)

Lemma commit_lines_fold (commits : list text) : ∀ h,
  foldl (λ h commit, h ++ str "- " ++ commit ++ [NL]) h commits =
  h ++ concat ((λ commit, str "- " ++ commit ++ [NL]) <$> commits).
Proof.
  induction commits as [|c cs IH]; intros h; [by rewrite app_nil_r|].
  cbn [foldl fmap list_fmap concat]. rewrite IH. by rewrite <- !app_assoc.
Qed.

Lemma git_history_sections_fold w author directories : ∀ history_info,
  git_failures_handled w author directories = true →
  foldl (λ acc directory,
           history_info ← acc;
           if negb (is_dir w directory) then Returned history_info
           else
             try_except
               (stdout ← run_git w directory author;
                if truthy stdout then
                  Returned
                    (foldl (λ h commit, h ++ str "- " ++ commit ++ [NL])
                           (history_info ++ [NL] ++ str "Folder: " ++ directory ++ [NL])
                           (split_lines (strip stdout)))
                else Returned history_info)
               (λ k, match k with CalledProcessError => true | _ => false end)
               (λ _, Returned history_info))
        (Returned history_info) directories =
  Returned (history_info ++ concat (git_section w author <$> directories)).
Proof.
  induction directories as [|d ds IH]; intros h0 Hok.
  - simpl. by rewrite app_nil_r.
  - simpl in Hok. apply andb_true_iff in Hok as [Hd Hds].
    cbn [foldl fmap list_fmap concat]. unfold git_section at 1.
    destruct (is_dir w d); simpl.
    2: { etrans; [by apply IH|]. done. }
    destruct (run_git w d author) as [stdout|e]; simpl.
    + destruct (truthy stdout).
      * etrans; [by apply IH|]. f_equal.
        pose proof (commit_lines_fold (split_lines (strip stdout))
                      (h0 ++ [NL] ++ str "Folder: " ++ d ++ [NL])) as Hc.
        simpl in Hc. rewrite Hc. rewrite <- !app_assoc. simpl.
        by rewrite <- ?app_assoc.
      * etrans; [by apply IH|]. done.
    + destruct (exn_kind_of e); try done. etrans; [by apply IH|]. done.
Qed.

Lemma git_history_raised_fold w author directories e :
  foldl (λ acc directory,
           history_info ← acc;
           if negb (is_dir w directory) then Returned history_info
           else
             try_except
               (stdout ← run_git w directory author;
                if truthy stdout then
                  Returned
                    (foldl (λ h commit, h ++ str "- " ++ commit ++ [NL])
                           (history_info ++ [NL] ++ str "Folder: " ++ directory ++ [NL])
                           (split_lines (strip stdout)))
                else Returned history_info)
               (λ k, match k with CalledProcessError => true | _ => false end)
               (λ _, Returned history_info))
        (Raised e) directories = Raised e.
Proof. induction directories as [|d ds IH]; simpl; [done|apply IH]. Qed.

(** When no [git] call fails with anything but [CalledProcessError], the
    history is the header followed by the sections of the directories, in
    their order; a directory that is skipped leaves no trace. *)
Theorem get_git_history_sections w author directories :
  directories ≠ [] →
  git_failures_handled w author directories = true →
  get_git_history w author directories =
  Returned (str "Include this Git history:" ++ [NL] ++
            concat (git_section w author <$> directories)).
Proof.
  intros Hne Hok. unfold get_git_history. destruct directories as [|d ds]; [done|].
  cbn [truthy negb].
  by rewrite (git_history_sections_fold w author (d :: ds) _ Hok).
Qed.

Lemma get_git_history_sections_witness :
  let w := World (Date 2024 1 2) (λ _, None) (λ d, bool_decide (d = str "repo"))
             (λ _ _, Returned (str "abc fix INFRA-1" ++ [NL])) (Returned []) in
  get_git_history w (str "me") [str "gone"; str "repo"] =
  Returned (str "Include this Git history:" ++ [NL] ++ [NL] ++
            str "Folder: repo" ++ [NL] ++ str "- abc fix INFRA-1" ++ [NL]).
Proof.
  intros w. rewrite (get_git_history_sections w (str "me") [str "gone"; str "repo"]).
  - by vm_compute.
  - done.
  - by vm_compute.
Defined.

(** A failure of [git] other than [CalledProcessError], such as a missing
    executable, is not handled: the first one ends [get_git_history] and
    both aggregations with that exception. *)
Theorem git_failure_propagates w a notes_directory author ds1 d ds2
    github_username github_org e :
  git_failures_handled w author ds1 = true →
  is_dir w d = true →
  run_git w d author = Raised e →
  exn_kind_of e ≠ CalledProcessError →
  get_git_history w author (ds1 ++ d :: ds2) = Raised e ∧
  aggregate_all_data w a notes_directory author (ds1 ++ d :: ds2)
    github_username github_org = Raised e ∧
  aggregate_all_data_structured w a notes_directory author (ds1 ++ d :: ds2) = Raised e.
Proof.
  intros Hok Hdir Hrun Hkind.
  assert (get_git_history w author (ds1 ++ d :: ds2) = Raised e) as Hg.
  { unfold get_git_history.
    assert (truthy (ds1 ++ d :: ds2) = true) as -> by by destruct ds1.
    cbn [negb]. rewrite foldl_app.
    rewrite (git_history_sections_fold w author ds1 _ Hok).
    cbn [foldl]. cbn [mbind outcome_bind]. rewrite Hdir. cbn [negb].
    rewrite Hrun. cbn [mbind outcome_bind try_except].
    destruct (exn_kind_of e); [done| |]; apply git_history_raised_fold. }
  split_and!; [done| |].
  - unfold aggregate_all_data. by rewrite Hg.
  - unfold aggregate_all_data_structured. by rewrite Hg.
Qed.

Lemma git_failure_propagates_witness :
  let w := World (Date 2024 1 2) (λ _, None) (λ _, true)
             (λ _ _, Raised (Exn FileNotFoundError (str "git")))
             (Returned []) in
  let e := Exn FileNotFoundError (str "git") in
  get_git_history w (str "me") [str "repo"] = Raised e ∧
  aggregate_all_data w aggregator_unconfigured (str "notes") (str "me") [str "repo"]
    None None = Raised e ∧
  aggregate_all_data_structured w aggregator_unconfigured (str "notes") (str "me")
    [str "repo"] = Raised e.
Proof.
  intros w e.
  apply (git_failure_propagates w aggregator_unconfigured (str "notes") (str "me")
           [] (str "repo") [] None None e); [reflexivity..|by vm_compute].
Defined.

(** ** The aggregated documents are never blank *)

Lemma Returned_inj {A} (x y : A) : Returned x = Returned y → x = y.
Proof. by intros [= ->]. Qed.

Lemma not_blank (s : text) x : x ∈ s → is_space x = false → truthy (strip s) = true.
Proof.
  intros Hx Hs. apply truthy_true. intros E.
  pose proof (strip_keeps x s Hx Hs) as H. rewrite E in H. by apply elem_of_nil in H.
Qed.

Lemma timew_summary_letter w s :
  get_timewarrior_summary w = Returned s → ∃ x, x ∈ s ∧ is_space x = false.
Proof.
  unfold get_timewarrior_summary. destruct (run_timew w) as [stdout|e]; simpl.
  - intros [= <-]. exists "T"%char. split; [by left|done].
  - destruct (exn_kind_of e); [| |done]; intros [= <-];
      (exists "N"%char; split; [by left|done]).
Qed.

Lemma flat_document_not_blank w a notes_directory git_author git_directories
    github_username github_org doc :
  aggregate_all_data w a notes_directory git_author git_directories
    github_username github_org = Returned doc →
  strip doc ≠ [].
Proof.
  unfold aggregate_all_data.
  destruct (get_git_history w git_author git_directories) as [g|]; [|done]. simpl.
  destruct (get_timewarrior_summary w) as [t|] eqn:Ht; [|done]. simpl.
  apply timew_summary_letter in Ht as (x & Hx & Hs).
  intros [= <-]. apply truthy_true, (not_blank _ x); [|done].
  destruct github_username as [u|], (github_client a), (truthy (get_notes_content w notes_directory));
    try destruct (truthy u); rewrite !elem_of_app; tauto.
Qed.

Lemma structure_for_ai_header c notes date_range :
  contains (str "=== TIMEFRAME ===") (structure_for_ai c notes date_range) = true.
Proof.
  destruct date_range as [start_date end_date]. unfold structure_for_ai. cbv zeta.
  assert (∀ T, run_of [str "=== TIMEFRAME ==="]
            (if bool_decide (start_date ≠ end_date)
             then [str "=== TIMEFRAME ===";
                   str "Period: " ++ strftime_ymd start_date ++ str " to " ++
                   strftime_ymd end_date] ++ T
             else [str "=== TIMEFRAME ===";
                   str "Period: " ++ strftime_ymd start_date ++ str " to " ++
                   strftime_ymd end_date])) as HT.
  { intros T. destruct (bool_decide _); apply run_of_elem; [apply elem_of_app; left|]; by left. }
  apply (contains_join_run [str "=== TIMEFRAME ==="]).
  destruct (bool_decide (c ≠ ∅)); [destruct (partition_tickets c) as [act men];
    destruct (truthy act), (truthy men)|];
    eauto 12 using run_of_app_l, run_of_app_r.
Qed.

Lemma structured_document_not_blank w a notes_directory git_author
    git_directories doc :
  aggregate_all_data_structured w a notes_directory git_author git_directories
    = Returned doc →
  strip doc ≠ [].
Proof.
  unfold aggregate_all_data_structured. cbv zeta.
  destruct (get_git_history w git_author git_directories) as [g|]; [|done].
  unfold mbind at 1, outcome_bind at 1. cbv beta iota.
  destruct (get_timewarrior_summary w) as [t|]; [|done].
  unfold mbind at 1, outcome_bind at 1. cbv beta iota.
  intros Hdoc%Returned_inj. subst doc.
  set (s := structure_for_ai _ _ _).
  apply truthy_true, (not_blank _ "="%char); [|done].
  assert ("="%char ∈ s) as Hs.
  { pose proof (structure_for_ai_header
                  (correlate_ticket_data (get_notes_content w notes_directory)
                     match jira_client a with
                     | Some (Returned tickets) => tickets
                     | _ => []
                     end g t)
                  (get_notes_content w notes_directory) (get_date_range w)) as H.
    apply contains_spec in H as (l & r & H). fold s in H. rewrite H.
    apply elem_of_app. right. apply elem_of_app. left. by left. }
  destruct (_ && _), (_ && _); rewrite !elem_of_app; tauto.
Qed.

(** A document that either aggregation returns is not blank. *)
Theorem aggregated_document_not_blank w a notes_directory git_author git_directories
    github_username github_org (structured : bool) doc :
  (if structured
   then aggregate_all_data_structured w a notes_directory git_author git_directories
   else aggregate_all_data w a notes_directory git_author git_directories
          github_username github_org) = Returned doc →
  strip doc ≠ [].
Proof.
  destruct structured.
  - apply structured_document_not_blank.
  - apply flat_document_not_blank.
Qed.

Lemma aggregated_document_not_blank_witness :
  ∃ doc, aggregate_all_data world_unavailable aggregator_unconfigured (str "notes")
           (str "me") [] None None = Returned doc ∧ strip doc ≠ [].
Proof.
  eexists. split; [by vm_compute|].
  apply (aggregated_document_not_blank world_unavailable aggregator_unconfigured
           (str "notes") (str "me") [] None None false).
  by vm_compute.
Defined.

(** ** [StandupAutomation.generate_standup_summary] *)

(** [generate_standup_summary] never raises.  It yields a summary exactly
    when the aggregation returns a document and the model answers the
    prompt made of the instruction, an empty line and that document with
    a text that is not blank; the summary is then that answer, trimmed.
    The check for a blank document never fires. *)
Theorem generate_standup_summary_spec (w : world) (a : aggregator) (cfg : config)
    (model : text → outcome text) (use_structured : bool) :
  StandupAutomation.generate_standup_summary w a cfg model use_structured =
  Returned
    match (if use_structured
           then aggregate_all_data_structured w a (notes_directory cfg) (git_author cfg)
                  (git_directories cfg)
           else aggregate_all_data w a (notes_directory cfg) (git_author cfg)
                  (git_directories cfg) (github_username cfg) None) with
    | Returned doc =>
        match model (vertex_instruction cfg ++ [NL; NL] ++ doc) with
        | Returned response =>
            if truthy (strip response) then Some (strip response) else None
        | Raised _ => None
        end
    | Raised _ => None
    end.
Proof.
  unfold StandupAutomation.generate_standup_summary.
  assert (∀ doc,
            (if use_structured
             then aggregate_all_data_structured w a (notes_directory cfg) (git_author cfg)
                    (git_directories cfg)
             else aggregate_all_data w a (notes_directory cfg) (git_author cfg)
                    (git_directories cfg) (github_username cfg) None) = Returned doc →
            truthy (strip doc) = true) as Hnb.
  { intros doc Hdoc. apply truthy_true. destruct use_structured.
    - by eapply structured_document_not_blank.
    - by eapply flat_document_not_blank. }
  destruct (if use_structured then _ else _) as [doc|e]; [|done].
  unfold mbind at 1, outcome_bind at 1. cbv beta iota.
  rewrite (Hnb doc eq_refl). cbn [negb].
  unfold AIService.generate_standup_summary, AIService.generate_summary. cbv zeta.
  destruct (model (vertex_instruction cfg ++ [NL; NL] ++ doc)) as [response|e]; [|done].
  simpl. by destruct (truthy (strip response)).
Qed.

(** ** Dates *)

Local Open Scope Z_scope.

Lemma days_before_year_split (q400 q100 q4 q1 : Z) :
  0 ≤ q100 ≤ 3 → 0 ≤ q4 ≤ 24 → 0 ≤ q1 ≤ 3 →
  days_before_year (q400 * 400 + q100 * 100 + q4 * 4 + q1 + 1) =
  q400 * 146097 + q100 * 36524 + q4 * 1461 + q1 * 365.
Proof.
  intros H100 H4 H1. unfold days_before_year. cbv zeta.
  replace (q400 * 400 + q100 * 100 + q4 * 4 + q1 + 1 - 1)
    with (q400 * 400 + q100 * 100 + q4 * 4 + q1) by lia.
  set (y := q400 * 400 + q100 * 100 + q4 * 4 + q1).
  assert (y / 400 = q400) as -> by (subst y; Z.div_mod_to_equations; lia).
  assert (y / 100 = q400 * 4 + q100) as -> by (subst y; Z.div_mod_to_equations; lia).
  assert (y / 4 = q400 * 100 + q100 * 25 + q4) as -> by (subst y; Z.div_mod_to_equations; lia).
  subst y. lia.
Qed.

Lemma is_leap_split (q400 q100 q4 q1 : Z) :
  0 ≤ q100 ≤ 3 → 0 ≤ q4 ≤ 24 → 0 ≤ q1 ≤ 3 →
  is_leap (q400 * 400 + q100 * 100 + q4 * 4 + q1 + 1) =
  (q1 =? 3) && (negb (q4 =? 24) || (q100 =? 3)).
Proof.
  intros H100 H4 H1. unfold is_leap.
  set (y := q400 * 400 + q100 * 100 + q4 * 4 + q1 + 1).
  destruct (Z.eqb_spec q1 3) as [E1|E1].
  - assert (y mod 4 = 0) as -> by (subst y; Z.div_mod_to_equations; lia).
    simpl. destruct (Z.eqb_spec q4 24) as [E4|E4].
    + assert (y mod 100 = 0) as -> by (subst y; Z.div_mod_to_equations; lia).
      simpl. destruct (Z.eqb_spec q100 3) as [E100|E100].
      * assert (y mod 400 = 0) as -> by (subst y; Z.div_mod_to_equations; lia). done.
      * destruct (Z.eqb_spec (y mod 400) 0) as [E|E]; [|done].
        exfalso. subst y. revert E. Z.div_mod_to_equations. lia.
    + destruct (Z.eqb_spec (y mod 100) 0) as [E|E]; [|done].
      exfalso. subst y. revert E. Z.div_mod_to_equations. lia.
  - destruct (Z.eqb_spec (y mod 4) 0) as [E|E]; [|done].
    exfalso. subst y. revert E. Z.div_mod_to_equations. lia.
Qed.

Lemma days_before_month_next (y m : Z) :
  2 ≤ m ≤ 12 →
  days_before_month y (m - 1) + days_in_month y (m - 1) = days_before_month y m.
Proof.
  intros Hm.
  assert (m = 2 ∨ m = 3 ∨ m = 4 ∨ m = 5 ∨ m = 6 ∨ m = 7 ∨ m = 8 ∨ m = 9 ∨ m = 10 ∨
          m = 11 ∨ m = 12) as Hcases by lia.
  unfold days_before_month, days_in_month.
  destruct Hcases as [->|[->|[->|[->|[->|[->|[->|[->|[->|[->| ->]]]]]]]]]];
    destruct (is_leap y); reflexivity.
Qed.

(** [fromordinal] is a right inverse of [toordinal]. *)
Lemma toordinal_fromordinal (n : Z) : 1 ≤ n → toordinal (fromordinal n) = n.
Proof.
  intros Hn. unfold fromordinal. cbv zeta.
  set (n0 := n - 1).
  pose proof (Z.div_mod n0 146097 ltac:(lia)) as E400.
  pose proof (Z.mod_pos_bound n0 146097 ltac:(lia)) as B400.
  set (q400 := n0 / 146097) in *. set (r := n0 mod 146097) in *.
  pose proof (Z.div_mod r 36524 ltac:(lia)) as E100.
  pose proof (Z.mod_pos_bound r 36524 ltac:(lia)) as B100.
  set (q100 := r / 36524) in *. set (r2 := r mod 36524) in *.
  pose proof (Z.div_mod r2 1461 ltac:(lia)) as E4.
  pose proof (Z.mod_pos_bound r2 1461 ltac:(lia)) as B4.
  set (q4 := r2 / 1461) in *. set (r3 := r2 mod 1461) in *.
  pose proof (Z.div_mod r3 365 ltac:(lia)) as E1.
  pose proof (Z.mod_pos_bound r3 365 ltac:(lia)) as B1.
  set (q1 := r3 / 365) in *. set (r4 := r3 mod 365) in *.
  clearbody q400 r q100 r2 q4 r3 q1 r4.
  assert (0 ≤ q100 ≤ 4 ∧ 0 ≤ q4 ≤ 24 ∧ 0 ≤ q1 ≤ 4) as (H100 & H4 & H1) by lia.
  destruct ((q1 =? 4) || (q100 =? 4)) eqn:Hend.
  - unfold toordinal. cbn [year month day].
    apply orb_true_iff in Hend as [E%Z.eqb_eq|E%Z.eqb_eq].
    + assert (q100 ≤ 3 ∧ q4 ≤ 23 ∧ r4 = 0) as (? & ? & ->) by lia. subst q1.
      replace (q400 * 400 + 1 + q100 * 100 + q4 * 4 + 4 - 1)
        with (q400 * 400 + q100 * 100 + q4 * 4 + 3 + 1) by lia.
      unfold days_before_month.
      rewrite days_before_year_split, is_leap_split by lia.
      replace (q4 =? 24) with false by (symmetry; apply Z.eqb_neq; lia).
      simpl. lia.
    + assert (q4 = 0 ∧ q1 = 0 ∧ r4 = 0) as (-> & -> & ->) by lia. subst q100.
      replace (q400 * 400 + 1 + 4 * 100 + 0 * 4 + 0 - 1)
        with (q400 * 400 + 3 * 100 + 24 * 4 + 3 + 1) by lia.
      unfold days_before_month.
      rewrite days_before_year_split, is_leap_split by lia.
      simpl. lia.
  - apply orb_false_iff in Hend as [E1'%Z.eqb_neq E100'%Z.eqb_neq].
    replace (q400 * 400 + 1 + q100 * 100 + q4 * 4 + q1)
      with (q400 * 400 + q100 * 100 + q4 * 4 + q1 + 1) by lia.
    set (y := q400 * 400 + q100 * 100 + q4 * 4 + q1 + 1).
    rewrite <- (is_leap_split q400 q100 q4 q1) by lia. fold y.
    rewrite Z.shiftr_div_pow2 by lia.
    set (m := (r4 + 50) / 2 ^ 5).
    assert (1 ≤ m ≤ 12) as Hm by (subst m; Z.div_mod_to_equations; lia).
    change (nth (Z.to_nat m) DAYS_BEFORE_MONTH 0 +
            (if (2 <? m) && is_leap y then 1 else 0)) with (days_before_month y m).
    assert (days_before_year y = n0 - r4) as Hy.
    { subst y. rewrite days_before_year_split by lia. lia. }
    destruct (r4 <? days_before_month y m) eqn:Hlt; unfold toordinal; cbn [year month day].
    + assert (2 ≤ m) as Hm2.
      { destruct (Z.eq_dec m 1) as [->|]; [|lia].
        apply Z.ltb_lt in Hlt. unfold days_before_month in Hlt. simpl in Hlt. lia. }
      pose proof (days_before_month_next y m ltac:(lia)). lia.
    + lia.
Qed.

(** ** [get_date_range] *)

Lemma date_range_ordinals w :
  3 < toordinal (now w) →
  (get_date_range w).2 = now w ∧
  toordinal (get_date_range w).1 =
    toordinal (now w) - (if weekday (now w) =? 0 then 3 else 1).
Proof.
  intros Hn. unfold get_date_range. cbv zeta. cbn [fst snd]. split; [done|].
  unfold minus_days. destruct (weekday (now w) =? 0); apply toordinal_fromordinal; lia.
Qed.

(** The range ends today and starts on the day before, except on a
    Monday, when it starts three days before, on the Friday; so the start
    is never a Sunday, it is a Saturday when today is a Sunday, and the
    two dates always differ. *)
Theorem get_date_range_spec w :
  3 < toordinal (now w) →
  (get_date_range w).2 = now w ∧
  toordinal (get_date_range w).1 =
    toordinal (now w) - (if weekday (now w) =? 0 then 3 else 1) ∧
  weekday (get_date_range w).1 =
    (if weekday (now w) =? 0 then 4 else weekday (now w) - 1) ∧
  (get_date_range w).1 ≠ (get_date_range w).2.
Proof.
  intros Hn. destruct (date_range_ordinals w Hn) as [Hstop Hstart].
  split_and!; [done|done| |].
  - unfold weekday in *. rewrite Hstart.
    destruct (Z.eqb_spec ((toordinal (now w) + 6) mod 7) 0) as [E|E];
      revert E; Z.div_mod_to_equations; lia.
  - rewrite Hstop. intros E. rewrite E in Hstart.
    destruct (weekday (now w) =? 0); lia.
Qed.

Lemma get_date_range_spec_witness :
  let w := world_unavailable in
  (get_date_range w).2 = now w ∧
  toordinal (get_date_range w).1 =
    toordinal (now w) - (if weekday (now w) =? 0 then 3 else 1) ∧
  weekday (get_date_range w).1 =
    (if weekday (now w) =? 0 then 4 else weekday (now w) - 1) ∧
  (get_date_range w).1 ≠ (get_date_range w).2.
Proof. intros w. apply (get_date_range_spec w). by vm_compute. Defined.

Local Close Scope Z_scope.

(** ** The time frame of the structured document *)

Lemma structure_for_ai_timeframe c notes (start_date end_date : datetime) :
  start_date ≠ end_date →
  ∃ rest, structure_for_ai c notes (start_date, end_date) =
          join_lines [str "=== TIMEFRAME ===";
                      str "Period: " ++ strftime_ymd start_date ++ str " to " ++
                      strftime_ymd end_date;
                      str "Yesterday: " ++ strftime_long start_date;
                      str "Today: " ++ strftime_long end_date;
                      []] ++ rest.
Proof.
  intros Hne. unfold structure_for_ai. cbv zeta.
  rewrite (bool_decide_eq_true_2 _ Hne).
  set (T := [_; _] ++ [_; _]).
  assert (∀ X, ∃ B, B ≠ [] ∧
            ((X ++ [[]]) ++ [str "=== WORK NOTES ==="]) ++ [clean_notes notes] = X ++ B)
    as Htail.
  { intros X. eexists. split; [|by rewrite <- !app_assoc]. done. }
  assert (∃ B, B ≠ [] ∧
            (((if bool_decide (c ≠ ∅)
               then
                 let '(active_tickets, mentioned_tickets) := partition_tickets c in
                 if truthy mentioned_tickets
                 then (if truthy active_tickets
                       then ((T ++ [[]]) ++ [str "=== TICKET WORK ==="]) ++
                            [str "ACTIVELY WORKED ON:"] ++
                            concat (active_block <$> sorted_items active_tickets)
                       else (T ++ [[]]) ++ [str "=== TICKET WORK ==="]) ++
                      [NL :: str "ALSO TRACKING:"] ++
                      (mentioned_line <$> sorted_items mentioned_tickets)
                 else if truthy active_tickets
                      then ((T ++ [[]]) ++ [str "=== TICKET WORK ==="]) ++
                           [str "ACTIVELY WORKED ON:"] ++
                           concat (active_block <$> sorted_items active_tickets)
                      else (T ++ [[]]) ++ [str "=== TICKET WORK ==="]
               else T ++ [[]]) ++ [[]]) ++ [str "=== WORK NOTES ==="]) ++
            [clean_notes notes] = (T ++ [[]]) ++ B) as (B & HB & ->).
  { destruct (bool_decide (c ≠ ∅)); [destruct (partition_tickets c) as [act men];
      destruct (truthy men), (truthy act)|];
      (eexists; split; [|rewrite <- !app_assoc; reflexivity]; done). }
  rewrite join_lines_app by done. by eexists.
Qed.

(** The structured document of the aggregator always opens with the four
    lines of the time frame: the period, the start as Yesterday and today
    as Today. *)
Theorem structured_document_timeframe w a notes_directory git_author git_directories doc :
  (3 < toordinal (now w))%Z →
  aggregate_all_data_structured w a notes_directory git_author git_directories
    = Returned doc →
  is_prefix
    (join_lines [str "=== TIMEFRAME ===";
                 str "Period: " ++ strftime_ymd (get_date_range w).1 ++ str " to " ++
                 strftime_ymd (now w);
                 str "Yesterday: " ++ strftime_long (get_date_range w).1;
                 str "Today: " ++ strftime_long (now w);
                 []])
    doc = true.
Proof.
  intros Hn. destruct (date_range_ordinals w Hn) as [Hstop Hstart].
  assert ((get_date_range w).1 ≠ (get_date_range w).2) as Hne.
  { rewrite Hstop. intros E. rewrite E in Hstart.
    destruct (weekday (now w) =? 0)%Z; lia. }
  clear Hstart.
  unfold aggregate_all_data_structured. cbv zeta.
  destruct (get_git_history w git_author git_directories) as [g|]; [|done].
  unfold mbind at 1, outcome_bind at 1. cbv beta iota.
  destruct (get_timewarrior_summary w) as [t|]; [|done].
  unfold mbind at 1, outcome_bind at 1. cbv beta iota.
  intros Hdoc%Returned_inj. subst doc.
  destruct (get_date_range w) as [start_date end_date] eqn:Hr.
  cbn [fst snd] in *. subst end_date.
  match goal with
  | |- context [structure_for_ai ?c ?n ?d] =>
      destruct (structure_for_ai_timeframe c n start_date (now w) Hne) as (rest & ->)
  end.
  apply is_prefix_spec.
  destruct (_ && _), (_ && _); rewrite <- ?app_assoc; by eexists.
Qed.

Lemma structured_document_timeframe_witness :
  is_prefix
    (str "=== TIMEFRAME ===" ++ [NL] ++
     str "Period: 2024-01-01 to 2024-01-02" ++ [NL] ++
     str "Yesterday: Monday, January 01" ++ [NL] ++
     str "Today: Tuesday, January 02" ++ [NL])
    (match aggregate_all_data_structured world_unavailable aggregator_unconfigured
             (str "notes") (str "me") [] with
     | Returned doc => doc
     | Raised _ => []
     end) = true.
Proof.
  destruct (aggregate_all_data_structured world_unavailable aggregator_unconfigured
              (str "notes") (str "me") []) as [doc|e] eqn:E; [|by vm_compute in E].
  exact (structured_document_timeframe world_unavailable aggregator_unconfigured
           (str "notes") (str "me") [] doc ltac:(by vm_compute) E).
Defined.

(** ** [get_notes_content] *)

(** The notes are empty exactly when neither the file of today nor the
    file of the previous workday exists; when both exist, the notes of
    today come first. *)
Theorem get_notes_content_spec w notes_directory :
  let today := (get_date_range w).2 in
  let previous_workday := (get_date_range w).1 in
  let section date :=
    match read_text w (get_note_path notes_directory date) with
    | Some content =>
        str "Notes for " ++ strftime_ymd date ++ str ":" ++ [NL] ++ content ++ [NL; NL]
    | None => []
    end in
  get_notes_content w notes_directory = section today ++ section previous_workday ∧
  (get_notes_content w notes_directory = [] ↔
   read_text w (get_note_path notes_directory today) = None ∧
   read_text w (get_note_path notes_directory previous_workday) = None).
Proof.
  intros today previous_workday section.
  assert (get_notes_content w notes_directory = section today ++ section previous_workday)
    as Heq.
  { unfold get_notes_content, section, today, previous_workday.
    destruct (get_date_range w) as [p t]. cbn [fst snd].
    destruct (read_text w (get_note_path notes_directory t)),
             (read_text w (get_note_path notes_directory p));
      rewrite ?app_nil_r, <- ?app_assoc; done. }
  split; [exact Heq|]. rewrite Heq. unfold section.
  destruct (read_text w (get_note_path notes_directory today)),
           (read_text w (get_note_path notes_directory previous_workday));
    split; try done; try (by intros [? ?]).
Qed.

(** ** [_extract_time_duration], completeness *)

(** A duration is reported as soon as a line that contains the identifier
    has a duration on itself or on the line before or after it. *)
Theorem time_duration_found timew_data ticket_id i j line l :
  split_lines timew_data !! i = Some line → contains ticket_id line = true →
  split_lines timew_data !! j = Some l → i ≤ j + 1 → j ≤ i + 1 →
  is_Some (search false pat_duration l) →
  is_Some (extract_time_duration timew_data ticket_id).
Proof.
  intros Hi Hc Hj Hij Hji Hs. unfold extract_time_duration.
  destruct (first_some _ (range 0 _)) as [d|] eqn:E; [done|]. exfalso.
  rewrite first_some_None in E.
  specialize (E i). rewrite Hi, Hc in E.
  pose proof (lookup_lt_Some _ _ _ Hi) as Hli.
  pose proof (lookup_lt_Some _ _ _ Hj) as Hlj.
  specialize (E ltac:(apply elem_of_range; lia)).
  rewrite first_some_None in E.
  specialize (E j ltac:(apply elem_of_range; lia)).
  rewrite Hj in E. destruct Hs as [f Hf]. by rewrite Hf in E.
Qed.

Lemma time_duration_found_witness :
  is_Some (extract_time_duration (str "INFRA-1" ++ [NL] ++ str "  1:30:00") (str "INFRA-1")).
Proof.
  apply (time_duration_found _ _ 0 1 (str "INFRA-1") (str "  1:30:00"));
    try reflexivity; try lia.
  vm_compute. by eexists.
Defined.

(** ** [extract_ticket_ids] does not see the letter case *)

Lemma word_opt_ci (a b : option ascii) :
  lower_char <$> a = lower_char <$> b → is_word_opt a = is_word_opt b.
Proof.
  destruct a as [x|], b as [y|]; simpl; try done.
  intros [= E]. by rewrite <- (lower_word x), E, lower_word.
Qed.

Lemma mention_ci (t1 t2 m1 : text) :
  lower t1 = lower t2 → mention m1 t1 →
  ∃ m2, mention m2 t2 ∧ lower m2 = lower m1.
Proof.
  intros Hci (pre & post & -> & Hsh & Hpre & Hpost).
  rewrite !lower_app in Hci. symmetry in Hci. unfold lower in Hci.
  apply fmap_app_inv in Hci as (pre2 & rest & Hp & Hrest & ->).
  symmetry in Hrest. apply fmap_app_inv in Hrest as (m2 & post2 & Hm & Hpo & ->).
  exists m2. split; [|done]. exists pre2, post2. split_and!; [done| | |].
  - destruct Hsh as [Hsh|Hsh]; [left|right].
    + apply shape_standard_lower. unfold lower. rewrite <- Hm. by apply shape_standard_lower.
    + apply shape_compact_lower. unfold lower. rewrite <- Hm. by apply shape_compact_lower.
  - rewrite <- Hpre. apply word_opt_ci. by rewrite <- !fmap_last, Hp.
  - rewrite <- Hpost. apply word_opt_ci.
    assert (∀ l : text, lower_char <$> head l = head (lower_char <$> l)) as Hh
      by by intros [|??].
    by rewrite !Hh, Hpo.
Qed.

(** Two texts that differ only in the case of their letters yield the same
    identifiers. *)
Theorem extract_ticket_ids_case_blind (t1 t2 : text) :
  lower t1 = lower t2 → extract_ticket_ids t1 = extract_ticket_ids t2.
Proof.
  assert (∀ a b x, lower a = lower b →
            x ∈ extract_ticket_ids a → x ∈ extract_ticket_ids b) as Hincl.
  { intros a b x Hci (m1 & Hm1 & ->)%extract_mention_iff.
    destruct (mention_ci a b m1 Hci Hm1) as (m2 & Hm2 & Hl).
    apply extract_mention_iff. exists m2. split; [done|]. symmetry. by apply same_ci_upper. }
  intros Hci. apply set_eq. intros x. split; by apply Hincl.
Qed.

Lemma extract_ticket_ids_case_blind_witness :
  extract_ticket_ids (str "Fix infra-12 now") = extract_ticket_ids (str "fix INFRA-12 NOW").
Proof. apply extract_ticket_ids_case_blind. by vm_compute. Defined.
